(** * jsrepo: block graph builder, pruning filter, dependency resolver and
      installed-block scanner

    A shallow embedding of
    - [packages/cli/src/utils/blocks.ts] ([resolveTree], [getInstalled]) and
    - [packages/cli/src/utils/build/index.ts] ([buildBlocksDirectory],
      the inclusion / listing policy, [pruneUnused]),
    together with the properties the specification states about them. *)

From stdpp Require Import base option list strings gmap.
From Stdlib Require Import Ascii String Bool Lia.

Local Open Scope string_scope.
Local Open Scope list_scope.

(** ** Results ([utils/blocks/ts/result]) *)

Inductive Result (T E : Type) : Type :=
| Ok (val : T)
| Err (err : E).
Arguments Ok {T E} val.
Arguments Err {T E} err.

Definition isErr {T E} (r : Result T E) : bool :=
  match r with Ok _ => false | Err _ => true end.

(** ** Data model ([types]) *)

(** [list_] is the source's [list] field, [imports_] its [_imports_]. *)
Record Block : Type := mkBlock {
  name : string;
  directory : string;
  category : string;
  tests : bool;
  subdirectory : bool;
  list_ : bool;
  files : list string;
  localDependencies : list string;
  imports_ : list (string * string);
  dependencies : list string;
  devDependencies : list string
}.

Record Category : Type := mkCategory {
  cat_name : string;
  blocks : list Block
}.

(** The template literal [`${category}/${name}`]. *)
Definition specifierOf (cat nm : string) : string :=
  (cat ++ "/" ++ nm)%string.

Definition blockSpecifier (b : Block) : string :=
  specifierOf (category b) (name b).

(** ** Insertion-ordered maps and sets (JS [Map] and [Set])

    A JS [Map] iterates in insertion order and [set] on an existing key
    replaces the value in place; a [Set] keeps the first insertion. *)

Section OrderedMap.
Context {V : Type}.

Fixpoint map_set (k : string) (v : V) (m : list (string * V)) : list (string * V) :=
  match m with
  | [] => [(k, v)]
  | (k', v') :: rest =>
      if String.eqb k k' then (k, v) :: rest else (k', v') :: map_set k v rest
  end.

Definition map_has (k : string) (m : list (string * V)) : bool :=
  existsb (fun kv => String.eqb k (fst kv)) m.

Definition map_keys (m : list (string * V)) : list string := fst <$> m.
Definition map_values (m : list (string * V)) : list V := snd <$> m.
End OrderedMap.

Fixpoint set_add (x : string) (s : list string) : list string :=
  match s with
  | [] => [x]
  | y :: rest => if String.eqb x y then s else y :: set_add x rest
  end.

(** [Array.prototype.includes] on strings. *)
Definition includes (l : list string) (x : string) : bool :=
  existsb (String.eqb x) l.

(** ** Paths ([pathe])

    The functions of [pathe] the sources call.  [join] takes the segments
    that are present: [pathe] skips a segment that is [undefined]. *)

Record PathApi : Type := mkPath {
  join : list string -> string;
  relative : string -> string -> string;
  basename : string -> string;
  parse_name : string -> string;
  parse_ext : string -> string
}.

(** ** Dependency resolver ([utils/blocks.ts]) *)

Module Resolver.

(** A block fetched from a registry carries the registry it came from. *)
Record RemoteBlock : Type := mkRemote {
  block : Block;
  sourceRepo : string
}.

Record InstallingBlock : Type := mkInstalling {
  ib_name : string;
  subDependency : bool;
  ib_block : RemoteBlock
}.

(** [provider.parse(s, { fullyQualified })] returns [{ url, specifier }];
    the source asserts the specifier to be present ([specifier!]). *)
Record RegistryProvider : Type := mkProvider {
  provider_name : string;
  parse : string -> bool -> string * string
}.

Record RegistryProviderState : Type := mkState {
  url : string;
  provider : RegistryProvider
}.

(** The two [Err] values of [resolveTree], told apart by their message:
    "If your config doesn't contain repos then you must provide the repo in
    the block specifier ..." and "Invalid block! ... does not exist!". *)
Inductive ResolveError : Type :=
| NoRepositoryConfigured (blockSpecifier : string)
| BlockNotFound (blockSpecifier : string).

Abbreviation BlockMap := (list (string * InstallingBlock)).

Definition remoteSpecifier (b : RemoteBlock) : string :=
  blockSpecifier (block b).

Section WithRegistry.
(** [registry.selectProvider] and [url.join] live outside this file. *)
Variable selectProvider : string -> option RegistryProvider.
Variable url_join : string -> string -> string.
Variable blocksMap : gmap string RemoteBlock.
Variable repoPaths : list RegistryProviderState.

(** Lines 45-50: what one configured repo has under the specifier. *)
Definition lookupInRepo (blockSpecifier : string)
    (providerState : RegistryProviderState) : option RemoteBlock :=
  let '(repoIdent, specifier) :=
    parse (provider providerState)
          (url_join (url providerState) blockSpecifier) true in
  blocksMap !! url_join repoIdent specifier.

(** Lines 44-57: the first repo whose manifest has the block. *)
Fixpoint findInRepos (blockSpecifier : string)
    (repos : list RegistryProviderState) : option RemoteBlock :=
  match repos with
  | [] => None
  | providerState :: rest =>
      match lookupInRepo blockSpecifier providerState with
      | None => findInRepos blockSpecifier rest
      | Some tempBlock => Some tempBlock
      end
  end.

(** Lines 27-70. *)
Definition findBlock (blockSpecifier : string) : Result RemoteBlock ResolveError :=
  match selectProvider blockSpecifier with
  | None =>
      match repoPaths with
      | [] => Err (NoRepositoryConfigured blockSpecifier)
      | _ :: _ =>
          match findInRepos blockSpecifier repoPaths with
          | Some b => Ok b
          | None => Err (BlockNotFound blockSpecifier)
          end
      end
  | Some p =>
      let '(repoIdent, specifier) := parse p blockSpecifier true in
      match blocksMap !! url_join repoIdent specifier with
      | Some b => Ok b
      | None => Err (BlockNotFound blockSpecifier)
      end
  end.

(** Lines 86-88. *)
Definition mergeDeps (subDeps : list InstallingBlock) (blocks : BlockMap) : BlockMap :=
  fold_left (fun acc dep => map_set (remoteSpecifier (ib_block dep)) dep acc)
            subDeps blocks.

(** Line 78. *)
Definition pendingDeps (b : RemoteBlock) (blocks installed : BlockMap) : list string :=
  List.filter (fun dep => negb (map_has dep blocks) && negb (map_has dep installed))
              (localDependencies (block b)).

(** The [for] loop of lines 26-90 with the batch [blocks] threaded
    through; [rec] is the recursive call of line 77.  [None] stands for a
    recursion that does not come back. *)
Fixpoint resolveLoop
    (rec : list string -> BlockMap -> option (Result (list InstallingBlock) ResolveError))
    (installed : BlockMap) (blockSpecifiers : list string) (blocks : BlockMap)
    : option (Result (list InstallingBlock) ResolveError) :=
  match blockSpecifiers with
  | [] => Some (Ok (map_values blocks))
  | blockSpecifier :: rest =>
      match findBlock blockSpecifier with
      | Err e => Some (Err e)
      | Ok b =>
          let blocks1 :=
            map_set (remoteSpecifier b)
                    (mkInstalling (name (block b)) false b) blocks in
          match localDependencies (block b) with
          | [] => resolveLoop rec installed rest blocks1
          | _ :: _ =>
              match rec (pendingDeps b blocks1 installed) blocks1 with
              | None => None
              | Some (Err e) => Some (Err e)
              | Some (Ok subDeps) =>
                  resolveLoop rec installed rest (mergeDeps subDeps blocks1)
              end
          end
      end
  end.

(** [resolveTree]; [fuel] bounds the depth of the recursion. *)
Fixpoint resolveTree (fuel : nat) (blockSpecifiers : list string)
    (installed : BlockMap)
    : option (Result (list InstallingBlock) ResolveError) :=
  match fuel with
  | O => None
  | S fuel' =>
      resolveLoop (resolveTree fuel') installed blockSpecifiers []
  end.

(** *** Notions the properties of [resolveTree] are stated with *)

(** Every entry of a batch sits under the specifier of its block. *)
Definition keyed (blocks : BlockMap) : Prop :=
  Forall (fun kv => fst kv = remoteSpecifier (ib_block (snd kv))) blocks.

(** The specifiers a call returns entries for. *)
Definition specifiers (out : list InstallingBlock) : list string :=
  (fun ib => remoteSpecifier (ib_block ib)) <$> out.

(** A local dependency [dep] is accounted for by a call that was given
    [installed] and returns entries for the specifiers [returned]: it was
    already installed, or it is returned, under its own name or under the
    specifier of the block it resolves to. *)
Definition accounted (installed : BlockMap) (returned : list string) (dep : string)
    : Prop :=
  map_has dep installed = true
  \/ dep ∈ returned
  \/ exists b, findBlock dep = Ok b /\ remoteSpecifier b ∈ returned.

(** Every local dependency of every entry of the batch is accounted for. *)
Definition closedBatch (installed blocks : BlockMap) : Prop :=
  forall kv dep,
    kv ∈ blocks -> dep ∈ localDependencies (block (ib_block (snd kv))) ->
    accounted installed (map_keys blocks) dep.

(** What a successful call promises: an entry for the block of every
    requested specifier, and every local dependency of every returned
    block accounted for. *)
Definition closedResult (specs : list string) (installed : BlockMap)
    (out : list InstallingBlock) : Prop :=
  (forall s, s ∈ specs ->
     exists b, findBlock s = Ok b /\ remoteSpecifier b ∈ specifiers out)
  /\ (forall ib dep,
        ib ∈ out -> dep ∈ localDependencies (block (ib_block ib)) ->
        accounted installed (specifiers out) dep).

End WithRegistry.
End Resolver.

(** ** Block graph builder ([utils/build/index.ts]) *)

Module Builder.

Record RegistryConfig : Type := mkConfig {
  dirs : list string;
  includeBlocks : list string;
  excludeBlocks : list string;
  listBlocks : list string;
  doNotListBlocks : list string;
  includeCategories : list string;
  excludeCategories : list string;
  listCategories : list string;
  doNotListCategories : list string;
  excludeDeps : list string;
  allowSubdirectories : bool
}.

Definition endsWith (s suffix : string) : bool :=
  let n := String.length s in
  let k := String.length suffix in
  (k <=? n)%nat && String.eqb (String.substring (n - k) k s) suffix.

Definition TEST_SUFFIXES : list string :=
  [".test.ts"; "_test.ts"; ".test.js"; "_test.js"].

Definition isTestFile (file : string) : bool :=
  match List.find (fun suffix => endsWith file suffix) TEST_SUFFIXES with
  | Some _ => true
  | None => false
  end.

(** *** Inclusion and listing policy (lines 254-306) *)

Definition shouldListBlock (name : string) (config : RegistryConfig) : bool :=
  if (0 <? List.length (doNotListBlocks config))%nat && includes (doNotListBlocks config) name
  then false
  else if (0 <? List.length (listBlocks config))%nat
       then includes (listBlocks config) name
       else true.

Definition shouldIncludeBlock (name : string) (config : RegistryConfig) : bool :=
  if (0 <? List.length (excludeBlocks config))%nat && includes (excludeBlocks config) name
  then false
  else if (0 <? List.length (includeBlocks config))%nat
       then includes (includeBlocks config) name
       else true.

Definition shouldListCategory (name : string) (config : RegistryConfig) : bool :=
  if (0 <? List.length (doNotListCategories config))%nat
     && includes (doNotListCategories config) name
  then false
  else if (0 <? List.length (listCategories config))%nat
       then includes (listCategories config) name
       else true.

Definition shouldIncludeCategory (name : string) (config : RegistryConfig) : bool :=
  if (0 <? List.length (excludeCategories config))%nat
     && includes (excludeCategories config) name
  then false
  else if (0 <? List.length (includeCategories config))%nat
       then includes (includeCategories config) name
       else true.

(** *** Collaborators *)

(** What [lang.resolveDependencies] is called with and answers. *)
Record ResolveOptions : Type := mkResolveOptions {
  filePath : string;
  isSubDir : bool;
  ro_excludeDeps : list string;
  ro_dirs : list string;
  ro_cwd : string;
  containingDir : option string
}.

Record ResolvedDependencies : Type := mkResolved {
  rd_dependencies : list string;
  rd_devDependencies : list string;
  local : list string;
  rd_imports : list (string * string)
}.

Record Lang : Type := mkLang {
  matches : string -> bool;
  resolveDependencies : ResolveOptions -> Result ResolvedDependencies string
}.

(** The file system under [blocksPath]: what [readdirSync] lists and
    what [statSync] says about each entry.  Every entry is a file or a
    directory that can be read: an entry on which [statSync] or
    [readdirSync] would throw (a dangling link, a directory without read
    permission; lines 44, 62, 67, 158, 166 and 228 are not in a [try])
    has no counterpart here, so the properties below speak of builds over
    readable trees. *)
#[local] Set Warnings "-register-all".
Inductive FsNode : Type :=
| File
| Dir (entries : list (string * FsNode)).
#[local] Set Warnings "register-all".

Record Options : Type := mkOptions {
  cwd : string;
  ignores : string -> bool;
  config : RegistryConfig
}.

(** *** Warnings and fatal errors

    [console.warn] appends to a log; [program.error] ends the run.  The
    two [Fatal] cases are the calls of [program.error] in the source
    (lines 35, 105 and 201); exceptions thrown by the file system
    elsewhere are not among them. *)

Inductive Warning : Type :=
| UnsupportedFile (path ext : string)
| SubdirectoriesNotAllowed (path : string).

Inductive Fatal : Type :=
| CouldNotReadDirectory (blocksPath : string)
| ResolveFailed (err : string).

Definition M (A : Type) : Type :=
  list Warning -> Result (A * list Warning) Fatal.

Definition ret {A} (a : A) : M A := fun log => Ok (a, log).

Definition bind {A B} (m : M A) (k : A -> M B) : M B :=
  fun log =>
    match m log with
    | Ok (a, log') => k a log'
    | Err e => Err e
    end.

Definition warn (w : Warning) : M unit := fun log => Ok (tt, log ++ [w]).

Definition program_error {A} (e : Fatal) : M A := fun _ => Err e.

Notation "x <- m ;; k" := (bind m (fun x => k))
  (at level 100, m at next level, right associativity).

(** A [for ... of] loop whose body updates [s]. *)
Fixpoint forOf {A S} (body : A -> S -> M S) (l : list A) (s : S) : M S :=
  match l with
  | [] => ret s
  | x :: rest => s' <- body x s ;; forOf body rest s'
  end.

(** *** The mutable variables of a subdirectory walk (lines 136-143) *)

Record WalkState : Type := mkWalk {
  localDepsSet : list string;
  depsSet : list string;
  devDepsSet : list string;
  ws_imports : list (string * string);
  hasTests : bool;
  blockFiles : list string
}.

Definition emptyWalk : WalkState := mkWalk [] [] [] [] false [].

(** Lines 205-210. *)
Definition addLocal (self : string) (deps : list string) (s : list string) : list string :=
  fold_left (fun acc dep => if String.eqb dep self then acc else set_add dep acc)
            deps s.

Definition addAll (deps : list string) (s : list string) : list string :=
  fold_left (fun acc dep => set_add dep acc) deps s.

Definition assignAll (imps : list (string * string)) (o : list (string * string))
    : list (string * string) :=
  fold_left (fun acc kv => map_set (fst kv) (snd kv) acc) imps o.

Section WithEnvironment.
Variable path : PathApi.
Variable languages : list Lang.
Variable opts : Options.

Definition findLang (file : string) : option Lang :=
  List.find (fun resolver => matches resolver file) languages.

(** Lines 308-311. *)
Definition transformBlockName (file : string) : string :=
  parse_name path (basename path file).

(** Lines 90-92. *)
Definition findTests (name : string) (files : list string) : option string :=
  List.find
    (fun f =>
       match List.find (fun suffix => String.eqb f (name ++ suffix)%string)
                       TEST_SUFFIXES with
       | Some _ => true
       | None => false
       end)
    files.

Section Walk.
Variable categoryName blockName blockDir : string.

(** The body of the loop in [walkFiles] (lines 147-225) for the entry
    [f] of [base]. *)
Fixpoint walkEntry (base f : string) (node : FsNode) (st : WalkState)
    {struct node} : M WalkState :=
  let filePath := join path [base; f] in
  let relativeFilePath := relative path (join path [cwd opts; blockDir]) filePath in
  if isTestFile f then
    ret (mkWalk (localDepsSet st) (depsSet st) (devDepsSet st) (ws_imports st)
                true (blockFiles st ++ [relativeFilePath]))
  else
    match node with
    | Dir subFiles =>
        if negb (allowSubdirectories (config opts)) then
          _ <- warn (SubdirectoriesNotAllowed (join path [blockDir; f])) ;;
          ret st
        else
          forOf (fun e st' => walkEntry filePath (fst e) (snd e) st') subFiles st
    | File =>
        match findLang f with
        | None =>
            _ <- warn (UnsupportedFile filePath (parse_ext path f)) ;;
            ret st
        | Some lang =>
            match resolveDependencies lang
                    (mkResolveOptions filePath true (excludeDeps (config opts))
                       (dirs (config opts)) (cwd opts) (Some blockDir)) with
            | Err err => program_error (ResolveFailed err)
            | Ok r =>
                ret (mkWalk
                       (addLocal (specifierOf categoryName blockName) (local r)
                                 (localDepsSet st))
                       (addAll (rd_dependencies r) (depsSet st))
                       (addAll (rd_devDependencies r) (devDepsSet st))
                       (assignAll (rd_imports r) (ws_imports st))
                       (hasTests st)
                       (blockFiles st ++ [relativeFilePath]))
            end
        end
    end.

Definition walkFiles (base : string) (files : list (string * FsNode))
    (st : WalkState) : M WalkState :=
  forOf (fun e st' => walkEntry base (fst e) (snd e) st') files st.
End Walk.

(** Lines 67-128: a file [file] of the category directory, whose
    entries are [files].  [None] is a [continue]. *)
Definition buildFileBlock (categoryName categoryDir : string)
    (listCategory : bool) (files : list string) (file : string)
    : M (option Block) :=
  let blockDir := join path [categoryDir; file] in
  if isTestFile file then ret None
  else
    let name := transformBlockName file in
    let listBlock := shouldListBlock name (config opts) in
    if negb (shouldIncludeBlock name (config opts)) then ret None
    else
      match findLang file with
      | None =>
          _ <- warn (UnsupportedFile blockDir (parse_ext path file)) ;;
          ret None
      | Some lang =>
          let testsPath := findTests name files in
          match resolveDependencies lang
                  (mkResolveOptions blockDir false (excludeDeps (config opts))
                     (dirs (config opts)) (cwd opts) None) with
          | Err err => program_error (ResolveFailed err)
          | Ok r =>
              ret (Some
                (mkBlock name
                   (relative path (cwd opts) categoryDir)
                   categoryName
                   (match testsPath with Some _ => true | None => false end)
                   false
                   (if listCategory then listBlock else false)
                   (file :: match testsPath with Some t => [t] | None => [] end)
                   (local r)
                   (rd_imports r)
                   (rd_dependencies r)
                   (rd_devDependencies r)))
          end
      end.

(** Lines 130-244: a directory [file] of the category directory, with
    entries [children]. *)
Definition buildDirectoryBlock (categoryName categoryDir : string)
    (listCategory : bool) (file : string) (children : list (string * FsNode))
    : M (option Block) :=
  let blockDir := join path [categoryDir; file] in
  let blockName := file in
  let listBlock := shouldListBlock blockName (config opts) in
  if negb (shouldIncludeBlock blockName (config opts)) then ret None
  else
    st <- walkFiles categoryName blockName blockDir blockDir children emptyWalk ;;
    ret (Some
      (mkBlock blockName
         (relative path (cwd opts) blockDir)
         categoryName
         (hasTests st)
         true
         (if listCategory then listBlock else false)
         (blockFiles st)
         (localDepsSet st)
         (ws_imports st)
         (depsSet st)
         (devDepsSet st))).

(** The body of the loop of line 64. *)
Definition buildBlock (categoryName categoryDir : string) (listCategory : bool)
    (files : list string) (e : string * FsNode) (blocks : list Block)
    : M (list Block) :=
  b <- match snd e with
       | File => buildFileBlock categoryName categoryDir listCategory files (fst e)
       | Dir children =>
           buildDirectoryBlock categoryName categoryDir listCategory (fst e) children
       end ;;
  ret (match b with Some b => blocks ++ [b] | None => blocks end).

(** The body of the loop of line 40. *)
Definition buildCategory (blocksPath : string) (e : string * FsNode)
    (categories : list Category) : M (list Category) :=
  let categoryPath := fst e in
  let categoryDir := join path [blocksPath; categoryPath] in
  match snd e with
  | File => ret categories
  | Dir files =>
      let dirName := (relative path (cwd opts) categoryDir ++ "/")%string in
      if ignores opts dirName then ret categories
      else
        let categoryName := basename path categoryPath in
        if negb (shouldIncludeCategory categoryName (config opts)) then ret categories
        else
          let listCategory := shouldListCategory categoryName (config opts) in
          blocks <- forOf (buildBlock categoryName categoryDir listCategory
                                      (fst <$> files)) files [] ;;
          ret (categories ++ [mkCategory categoryName blocks])
  end.

(** [root] is what the file system has at [blocksPath]; [readdirSync]
    throws unless it is a directory. *)
Definition buildBlocksDirectory (blocksPath : string) (root : FsNode)
    : M (list Category) :=
  match root with
  | File => program_error (CouldNotReadDirectory blocksPath)
  | Dir paths => forOf (buildCategory blocksPath) paths []
  end.
(** *** What a block directory contributes when subdirectories are not
    allowed

    A second description of the walk for that configuration, to compare
    [walkFiles] with: only the entries directly inside the block
    directory count, and a directory among them gives a warning and
    nothing else. *)





(** Lines 44-53: whether an entry of [blocksPath] becomes a category. *)
Definition categoryKept (blocksPath : string) (e : string * FsNode) : bool :=
  match snd e with
  | File => false
  | Dir _ =>
      negb (ignores opts
              (relative path (cwd opts) (join path [blocksPath; fst e]) ++ "/")%string)
      && shouldIncludeCategory (basename path (fst e)) (config opts)
  end.
End WithEnvironment.
End Builder.

(** ** Pruning filter ([pruneUnused], lines 313-336) *)

Module Prune.

(** The blocks of the whole manifest, category after category. *)
Definition allBlocks (categories : list Category) : list Block :=
  flat_map blocks categories.

(** Modelled from the spec: [isDependedOn] of [utils/build/check.ts], which
    is not among the sources.  The spec: the filter "removes blocks that
    are neither marked listable nor transitively depended upon by a listed
    block"; a block survives if "its specifier appears in the
    localDependencies of at least one other surviving-candidate block
    anywhere in the full set (computed by a whole-graph scan, not
    per-category)", and "a block with isListed = false that is depended
    upon by a listed block survives".  So a specifier is depended on when
    another block of the full set names it and that block is listed or is
    itself depended on.  [dependedOnWithin n] follows such chains through
    at most [n] blocks; a chain that repeats no block is not longer than
    the manifest. *)
Fixpoint dependedOnWithin (n : nat) (specifier : string) (categories : list Category)
    : bool :=
  match n with
  | O => false
  | S n' =>
      existsb
        (fun block =>
           negb (String.eqb (blockSpecifier block) specifier)
           && includes (localDependencies block) specifier
           && (list_ block || dependedOnWithin n' (blockSpecifier block) categories))
        (allBlocks categories)
  end.

(** Modelled from the spec: [isDependedOn specifier categories] of
    [utils/build/check.ts] as [pruneUnused] calls it, with room for a chain
    through every block of the manifest. *)
Definition isDependedOn (specifier : string) (categories : list Category) : bool :=
  dependedOnWithin (S (List.length (allBlocks categories))) specifier categories.

(** Lines 320-330. *)
Fixpoint pruneBlocks (categories : list Category) (bs : list Block) : list Block :=
  match bs with
  | [] => []
  | block :: rest =>
      let specifier := blockSpecifier block in
      if negb (list_ block) && negb (isDependedOn specifier categories)
      then pruneBlocks categories rest
      else block :: pruneBlocks categories rest
  end.

(** Lines 317-333. *)
Fixpoint pruneCategories (categories cs : list Category) : list Category :=
  match cs with
  | [] => []
  | category :: rest =>
      let catBlocks := pruneBlocks categories (blocks category) in
      if (0 <? List.length catBlocks)%nat
      then mkCategory (cat_name category) catBlocks :: pruneCategories categories rest
      else pruneCategories categories rest
  end.

(** [prunedCount] is a constant [0] in the source. *)
Definition pruneUnused (categories : list Category) : list Category * nat :=
  (pruneCategories categories categories, 0%nat).

(** The spec's [prune]. *)
Definition prune (categories : list Category) : list Category :=
  fst (pruneUnused categories).

(** *** The filter in the words of the specification *)

(** [b] is a block of the graph. *)
Definition inGraph (categories : list Category) (b : Block) : Prop :=
  exists c, c ∈ categories /\ b ∈ blocks c.


(** "Transitively depended upon by a listed block": another block of the
    graph names the specifier, and that block is listed or is in turn
    depended upon. *)
Inductive DependedOn (categories : list Category) : string -> Prop :=
| by_listed b specifier :
    inGraph categories b -> blockSpecifier b <> specifier ->
    specifier ∈ localDependencies b -> list_ b = true ->
    DependedOn categories specifier
| by_dependency b specifier :
    inGraph categories b -> blockSpecifier b <> specifier ->
    specifier ∈ localDependencies b -> DependedOn categories (blockSpecifier b) ->
    DependedOn categories specifier.

(** "A block survives if [isListed] is true, or if its specifier appears
    in the [localDependencies] of at least one other surviving-candidate
    block". *)
Definition survives (categories : list Category) (b : Block) : bool :=
  list_ b || isDependedOn (blockSpecifier b) categories.


End Prune.

(** ** Installed-block scanner ([getInstalled], lines 107-139) *)

Module Scanner.

Record InstalledBlock : Type := mkInstalled {
  specifier : string;
  path : string;
  block : Block
}.

Section WithProject.
(** [config.paths], [resolvePaths] and [getPathForBlock] belong to
    [utils/config]; [existsSync] is the state of the disk. *)
Variables Paths ResolvedPaths : Type.
Variable resolvePaths : Paths -> string -> Result ResolvedPaths string.
Variable getPathForBlock : Block -> ResolvedPaths -> string -> string.
Variable pathe : PathApi.
Variable existsSync : string -> bool.

Record ProjectConfig : Type := mkProject { paths : Paths }.

(** Lines 123-128. *)
Definition blockPath (resolvedPaths : ResolvedPaths) (cwd : string) (b : Block)
    : string :=
  let baseDir := getPathForBlock b resolvedPaths cwd in
  if subdirectory b then join pathe [baseDir; name b]
  else join pathe (baseDir :: option_list (head (files b))).

(** The loop of lines 122-136 over the entries of [blocks]. *)
Fixpoint scan (resolvedPaths : ResolvedPaths) (cwd : string)
    (blocks : list (string * Block)) : list InstalledBlock :=
  match blocks with
  | [] => []
  | (_, b) :: rest =>
      let p := blockPath resolvedPaths cwd b in
      if existsSync p
      then mkInstalled (blockSpecifier b) p b :: scan resolvedPaths cwd rest
      else scan resolvedPaths cwd rest
  end.

(** [program.error] on unresolvable paths is the [Err] case. *)
Definition getInstalled (blocks : list (string * Block)) (config : ProjectConfig)
    (cwd : string) : Result (list InstalledBlock) string :=
  match resolvePaths (paths config) cwd with
  | Err e => Err e
  | Ok resolvedPaths => Ok (scan resolvedPaths cwd blocks)
  end.
End WithProject.
End Scanner.

(** ** Concrete registries, projects and source trees

    Small instances of the collaborators, used to run the definitions. *)

Module Scenario.

(** *** A stand-in for [pathe] on plain relative and absolute paths *)

Fixpoint splitLast (c : ascii) (s : string) : option (string * string) :=
  match s with
  | EmptyString => None
  | String a rest =>
      match splitLast c rest with
      | Some (before, after) => Some (String a before, after)
      | None => if Ascii.eqb a c then Some (EmptyString, rest) else None
      end
  end.

Fixpoint stripPrefix (p s : string) : option string :=
  match p, s with
  | EmptyString, _ => Some s
  | String a p', String b s' => if Ascii.eqb a b then stripPrefix p' s' else None
  | String _ _, EmptyString => None
  end.

Definition processCwd : string := "/proj".

Definition absolute (p : string) : string :=
  if String.prefix "/" p then p else (processCwd ++ "/" ++ p)%string.

Definition simplePath : PathApi :=
  {| join segments :=
       String.concat "/" (List.filter (fun seg => negb (String.eqb seg "")) segments);
     relative from to :=
       match stripPrefix (absolute from ++ "/") (absolute to) with
       | Some r => r
       | None => absolute to
       end;
     basename p :=
       match splitLast "/" p with Some (_, after) => after | None => p end;
     parse_name p :=
       match splitLast "." p with
       | Some (EmptyString, _) => p
       | Some (before, _) => before
       | None => p
       end;
     parse_ext p :=
       match splitLast "." p with
       | Some (EmptyString, _) => EmptyString
       | Some (_, after) => ("." ++ after)%string
       | None => EmptyString
       end |}.

(** *** A registry on a git host *)

Fixpoint splitAfterSlashes (n : nat) (s : string) : string * string :=
  match s with
  | EmptyString => (EmptyString, EmptyString)
  | String c rest =>
      if Ascii.eqb c "/" then
        match n with
        | O => (EmptyString, rest)
        | S n' => let '(a, b) := splitAfterSlashes n' rest in (String c a, b)
        end
      else let '(a, b) := splitAfterSlashes n rest in (String c a, b)
  end.

(** [github/<owner>/<repo>/<category>/<name>]. *)
Definition github : Resolver.RegistryProvider :=
  Resolver.mkProvider "github" (fun s _ => splitAfterSlashes 2 s).

Definition selectProvider (s : string) : option Resolver.RegistryProvider :=
  if String.prefix "github/" s then Some github else None.

Definition url_join (a b : string) : string := (a ++ "/" ++ b)%string.

Definition acme : Resolver.RegistryProviderState :=
  Resolver.mkState "github/acme/lib" github.

Definition remote (cat nm : string) (deps : list string) : Resolver.RemoteBlock :=
  Resolver.mkRemote
    (mkBlock nm ("src/" ++ cat)%string cat false false true [(nm ++ ".ts")%string]
             deps [] [] [])
    "github/acme/lib".

Definition manifest (bs : list Resolver.RemoteBlock) : gmap string Resolver.RemoteBlock :=
  list_to_map
    ((fun b => (url_join (Resolver.sourceRepo b) (Resolver.remoteSpecifier b), b)) <$> bs).

(** [ui/a] needs [ui/b], which needs [ui/a]. *)
Definition twoCycle : gmap string Resolver.RemoteBlock :=
  manifest [remote "ui" "a" ["ui/b"]; remote "ui" "b" ["ui/a"]].

(** [ui/a] needs [ui/b], which needs [ui/c], which needs [ui/a]. *)
Definition threeCycle : gmap string Resolver.RemoteBlock :=
  manifest [remote "ui" "a" ["ui/b"]; remote "ui" "b" ["ui/c"];
            remote "ui" "c" ["ui/a"]].

(** [ui/button] needs [ui/icon], which needs [ui/theme]. *)
Definition chain : gmap string Resolver.RemoteBlock :=
  manifest [remote "ui" "button" ["ui/icon"]; remote "ui" "icon" ["ui/theme"];
            remote "ui" "theme" []].

(** *** A source tree and a TypeScript resolver *)

Definition noDeps : Builder.ResolvedDependencies := Builder.mkResolved [] [] [] [].

(** What the resolver finds in the files of the trees below. *)
Definition typescript : Builder.Lang :=
  Builder.mkLang
    (fun file => Builder.endsWith file ".ts")
    (fun o =>
       if String.eqb (Builder.filePath o) "src/utils/math.ts" then
         Ok (Builder.mkResolved [] [] ["utils/math"; "utils/string"] [])
       else if String.eqb (Builder.filePath o) "src/utils/array/index.ts" then
         Ok (Builder.mkResolved ["lodash"] [] ["utils/string"; "utils/array"]
               [("../string", "utils/string")])
       else Ok noDeps).

Definition defaults (allow : bool) : Builder.RegistryConfig :=
  Builder.mkConfig ["src"] [] [] [] [] [] [] [] [] [] allow.

Definition options (c : Builder.RegistryConfig) : Builder.Options :=
  Builder.mkOptions "/proj" (fun _ => false) c.

Definition build (c : Builder.RegistryConfig) (root : Builder.FsNode) :=
  Builder.buildBlocksDirectory simplePath [typescript] (options c) "src" root [].

(** [src/utils/math.ts], which imports itself and [utils/string]. *)
Definition selfImportTree : Builder.FsNode :=
  Builder.Dir [("utils", Builder.Dir [("math.ts", Builder.File);
                                      ("string.ts", Builder.File)])].


(** [src/utils/array/] with [index.ts], [index.test.ts] and a nested
    directory [internal/] holding [deep.ts]. *)
Definition arrayTree : Builder.FsNode :=
  Builder.Dir
    [("utils",
      Builder.Dir
        [("array",
          Builder.Dir [("index.ts", Builder.File);
                       ("index.test.ts", Builder.File);
                       ("internal", Builder.Dir [("deep.ts", Builder.File)])])])].

(** [src/utils/array/] with [index.ts] and [index.test.ts] only. *)
Definition flatArrayTree : Builder.FsNode :=
  Builder.Dir
    [("utils",
      Builder.Dir
        [("array",
          Builder.Dir [("index.ts", Builder.File);
                       ("index.test.ts", Builder.File)])])].

(** The blocks the builder makes of these trees. *)
Definition mathBlock : Block :=
  mkBlock "math" "src/utils" "utils" false false true ["math.ts"]
          ["utils/math"; "utils/string"] [] [] [].

Definition stringBlock : Block :=
  mkBlock "string" "src/utils" "utils" false false true ["string.ts"] [] [] [] [].

Definition emptyBlock : Block :=
  mkBlock "empty" "src/utils/empty" "utils" false true true [] [] [] [] [].

Definition arrayBlock (listed : bool) (fs : list string) : Block :=
  mkBlock "array" "src/utils/array" "utils" true true listed fs
          ["utils/string"] [("../string", "utils/string")] ["lodash"] [].

(** The category [utils] is built but not listed. *)
Definition unlistedUtils : Builder.RegistryConfig :=
  Builder.mkConfig ["src"] [] [] [] [] [] [] [] ["utils"] [] true.

(** *** A manifest to prune: [ui/a] and [ui/b] are both unlisted and
    [ui/a] needs [ui/b]. *)

Definition unlisted (nm : string) (deps : list string) : Block :=
  mkBlock nm "src/ui" "ui" false false false [(nm ++ ".ts")%string] deps [] [] [].


(** The same with a listed [ui/a]. *)
Definition listedChain : list Category :=
  [mkCategory "ui"
     [mkBlock "a" "src/ui" "ui" false false true ["a.ts"] ["ui/b"] [] [] [];
      unlisted "b" []]].

(** *** A consumer project

    Blocks of every category go under [/proj/src/blocks/<category>], and
    only [math.ts] of [utils] is on disk. *)

Definition resolvePaths (paths : list (string * string)) (cwd : string)
    : Result (list (string * string)) string :=
  Ok ((fun kv => (fst kv, simplePath.(join) [cwd; snd kv])) <$> paths).

Definition getPathForBlock (b : Block) (resolvedPaths : list (string * string))
    (cwd : string) : string :=
  match List.find (fun kv => String.eqb (fst kv) "*") resolvedPaths with
  | Some kv => simplePath.(join) [snd kv; category b]
  | None => simplePath.(join) [cwd; category b]
  end.

Definition project : Scanner.ProjectConfig (list (string * string)) :=
  Scanner.mkProject _ [("*", "src/blocks")].

Definition onDisk (p : string) : bool :=
  String.eqb p "/proj/src/blocks/utils/math.ts".

Definition knownBlocks : list (string * Block) :=
  [("utils/math", mathBlock); ("utils/string", stringBlock);
   ("utils/empty", emptyBlock)].

(** *** More of the registry *)

(** How far a block of [chain] is from a block without local
    dependencies. *)
Definition chainRank (b : Resolver.RemoteBlock) : nat :=
  if String.eqb (name (Resolver.block b)) "theme" then 0
  else if String.eqb (name (Resolver.block b)) "icon" then 1
  else 2.

(** A second registry, which has a [ui/button] of its own. *)
Definition zed : Resolver.RegistryProviderState :=
  Resolver.mkState "github/zed/kit" github.

Definition zedButton : Resolver.RemoteBlock :=
  Resolver.mkRemote
    (mkBlock "button" "lib/ui" "ui" false false true ["button.ts"] [] [] [] [])
    "github/zed/kit".

Definition bothRegistries : gmap string Resolver.RemoteBlock :=
  manifest [remote "ui" "button" ["ui/icon"]; remote "ui" "icon" ["ui/theme"];
            remote "ui" "theme" []; zedButton].

(** [ui/icon] is already in the project. *)
Definition iconInstalled : list (string * Resolver.InstallingBlock) :=
  [("ui/icon", Resolver.mkInstalling "icon" false (remote "ui" "icon" ["ui/theme"]))].

(** *** More source trees *)

(** [src/] with a file, the category [utils] and an empty directory
    [drafts]. *)
Definition mixedTree : Builder.FsNode :=
  Builder.Dir [("README.md", Builder.File);
               ("utils", Builder.Dir [("math.ts", Builder.File);
                                      ("string.ts", Builder.File)]);
               ("drafts", Builder.Dir [])].

(** A manifest whose blocks are all listed, with a category left empty. *)
Definition listedManifest : list Category :=
  [mkCategory "utils" [mathBlock; stringBlock]; mkCategory "drafts" []].

End Scenario.

(** * Properties *)

(** ** Insertion-ordered maps *)

Section OrderedMapFacts.
Context {V : Type}.
Implicit Types (m : list (string * V)) (k : string) (v : V).

Lemma map_has_true k m : map_has k m = true <-> k ∈ map_keys m.
Proof.
  unfold map_has, map_keys. induction m as [|[k' v'] m IH]; csimpl.
  - split; [discriminate | inversion 1].
  - rewrite orb_true_iff, elem_of_cons, IH, String.eqb_eq. tauto.
Qed.

Lemma map_has_false k m : map_has k m = false <-> k ∉ map_keys m.
Proof.
  rewrite <- map_has_true. destruct (map_has k m); split; congruence.
Qed.

Lemma map_has_set k' k v m :
  map_has k' (map_set k v m) = String.eqb k' k || map_has k' m.
Proof.
  unfold map_has. induction m as [|[k0 v0] m IH]; simpl.
  - reflexivity.
  - destruct (String.eqb_spec k k0) as [->|Hne]; simpl.
    + destruct (String.eqb k' k0); reflexivity.
    + rewrite IH. destruct (String.eqb k' k), (String.eqb k' k0); reflexivity.
Qed.

Lemma map_keys_set k v m :
  map_keys (map_set k v m) =
    if map_has k m then map_keys m else map_keys m ++ [k].
Proof.
  unfold map_has, map_keys. induction m as [|[k0 v0] m IH]; csimpl.
  - reflexivity.
  - destruct (String.eqb_spec k k0) as [->|Hne]; csimpl.
    + reflexivity.
    + rewrite IH. destruct (existsb _ m); reflexivity.
Qed.

Lemma elem_of_map_set kv k v m :
  kv ∈ map_set k v m -> kv = (k, v) \/ kv ∈ m.
Proof.
  induction m as [|[k0 v0] m IH]; simpl.
  - rewrite list_elem_of_singleton. tauto.
  - destruct (String.eqb_spec k k0) as [->|Hne];
      rewrite !elem_of_cons; intuition.
Qed.

Lemma map_set_elem_of k v m : (k, v) ∈ map_set k v m.
Proof.
  induction m as [|[k0 v0] m IH]; simpl.
  - apply list_elem_of_here.
  - destruct (String.eqb k k0); rewrite elem_of_cons; auto.
Qed.

(** An entry under another key stays where it is. *)
Lemma map_set_other kv k v m :
  kv ∈ m -> fst kv <> k -> kv ∈ map_set k v m.
Proof.
  induction m as [|[k0 v0] m IH]; simpl; [inversion 1|].
  intros Hin Hne. destruct (String.eqb_spec k k0) as [->|Hk];
    apply elem_of_cons in Hin as [->|Hin]; rewrite elem_of_cons; simpl in *;
    first [congruence | auto].
Qed.

Lemma elem_of_map_values v m : v ∈ map_values m <-> exists k, (k, v) ∈ m.
Proof.
  unfold map_values. rewrite list_elem_of_fmap. split.
  - intros [[k v'] [-> Hin]]. eauto.
  - intros [k Hin]. exists (k, v). auto.
Qed.

Lemma NoDup_map_keys_set k v m :
  NoDup (map_keys m) -> NoDup (map_keys (map_set k v m)).
Proof.
  intros Hnd. rewrite map_keys_set.
  destruct (map_has k m) eqn:Hhas; [assumption|].
  apply NoDup_app. repeat split; [assumption| |apply NoDup_singleton].
  intros x Hx Hx'. apply list_elem_of_singleton in Hx' as ->.
  apply map_has_false in Hhas. contradiction.
Qed.
End OrderedMapFacts.

(** ** Dependency resolver *)

Section ResolverFacts.
Import Resolver.
Variable selectProvider : string -> option RegistryProvider.
Variable url_join : string -> string -> string.
Variable blocksMap : gmap string RemoteBlock.
Variable repoPaths : list RegistryProviderState.

Local Abbreviation findBlock := (findBlock selectProvider url_join blocksMap repoPaths).
Local Abbreviation resolveLoop := (resolveLoop selectProvider url_join blocksMap repoPaths).
Local Abbreviation resolveTree := (resolveTree selectProvider url_join blocksMap repoPaths).
Local Abbreviation accounted := (accounted selectProvider url_join blocksMap repoPaths).
Local Abbreviation closedBatch := (closedBatch selectProvider url_join blocksMap repoPaths).
Local Abbreviation closedResult := (closedResult selectProvider url_join blocksMap repoPaths).

Implicit Types (blocks installed : BlockMap) (out subDeps : list InstallingBlock).

(** *** More fuel never changes an answer *)

Lemma resolveLoop_mono rec1 rec2 installed :
  (forall specs i r, rec1 specs i = Some r -> rec2 specs i = Some r) ->
  forall specs blocks r,
    resolveLoop rec1 installed specs blocks = Some r ->
    resolveLoop rec2 installed specs blocks = Some r.
Proof.
  intros Hrec specs. induction specs as [|s rest IH]; intros blocks r; simpl.
  - auto.
  - destruct (findBlock s) as [b|e]; [|auto].
    destruct (localDependencies (block b)) as [|d ds]; [apply IH|].
    destruct (rec1 _ _) as [[subDeps|e]|] eqn:Hsub; [| |discriminate].
    + rewrite (Hrec _ _ _ Hsub). apply IH.
    + rewrite (Hrec _ _ _ Hsub). auto.
Qed.

Lemma resolveTree_fuel_mono fuel fuel' specs installed r :
  fuel <= fuel' ->
  resolveTree fuel specs installed = Some r ->
  resolveTree fuel' specs installed = Some r.
Proof.
  revert fuel' specs installed r.
  induction fuel as [|fuel IH]; intros fuel' specs installed r Hle; simpl.
  - discriminate.
  - destruct fuel' as [|fuel']; [lia|]. simpl.
    apply resolveLoop_mono. intros ? ? ?. apply IH. lia.
Qed.

(** *** Every entry sits under the specifier of its block *)

Lemma keyed_set blocks v :
  keyed blocks -> keyed (map_set (remoteSpecifier (ib_block v)) v blocks).
Proof.
  unfold keyed. rewrite !Forall_forall. intros H kv Hin.
  apply elem_of_map_set in Hin as [->|Hin]; auto.
Qed.

Lemma keyed_merge subDeps blocks :
  keyed blocks -> keyed (mergeDeps subDeps blocks).
Proof.
  unfold mergeDeps. revert blocks.
  induction subDeps as [|d ds IH]; intros blocks H; simpl; [assumption|].
  apply IH, keyed_set, H.
Qed.

Lemma NoDup_keys_merge subDeps blocks :
  NoDup (map_keys blocks) -> NoDup (map_keys (mergeDeps subDeps blocks)).
Proof.
  unfold mergeDeps. revert blocks.
  induction subDeps as [|d ds IH]; intros blocks H; simpl; [assumption|].
  apply IH, NoDup_map_keys_set, H.
Qed.

Lemma keyed_values_keys blocks :
  keyed blocks ->
  specifiers (map_values blocks) = map_keys blocks.
Proof.
  unfold keyed, specifiers, map_values, map_keys. induction 1 as [|[k v] m Hk _ IH]; csimpl.
  - reflexivity.
  - simpl in Hk. rewrite IH, Hk. reflexivity.
Qed.

Lemma resolveLoop_NoDup rec installed specs : forall blocks out,
  keyed blocks -> NoDup (map_keys blocks) ->
  resolveLoop rec installed specs blocks = Some (Ok out) ->
  NoDup (specifiers out).
Proof.
  induction specs as [|s rest IH]; intros blocks out Hk Hnd; simpl.
  - intros [= <-]. rewrite keyed_values_keys; assumption.
  - destruct (findBlock s) as [b|e]; [|discriminate].
    set (ib := mkInstalling (name (block b)) false b).
    assert (Hk1 : keyed (map_set (remoteSpecifier b) ib blocks))
      by exact (keyed_set blocks ib Hk).
    assert (Hnd1 : NoDup (map_keys (map_set (remoteSpecifier b) ib blocks)))
      by exact (NoDup_map_keys_set _ ib _ Hnd).
    destruct (localDependencies (block b)) as [|d ds]; [eauto|].
    destruct (rec _ _) as [[subDeps|e]|]; [|discriminate..].
    apply IH; [apply keyed_merge | apply NoDup_keys_merge]; assumption.
Qed.

(** X1: a successful call returns at most one [InstallingBlock] for any
    specifier. *)
Lemma resolveTree_NoDup fuel specs installed out :
  resolveTree fuel specs installed = Some (Ok out) ->
  NoDup (specifiers out).
Proof.
  destruct fuel as [|fuel]; simpl; [discriminate|].
  apply resolveLoop_NoDup; [constructor | constructor].
Qed.

(** *** Properties of every returned entry *)

Lemma Forall_values_set (R : InstallingBlock -> Prop) k v blocks :
  R v -> Forall R (map_values blocks) -> Forall R (map_values (map_set k v blocks)).
Proof.
  rewrite !Forall_forall. intros Hv H x Hx.
  apply elem_of_map_values in Hx as [k' Hx].
  apply elem_of_map_set in Hx as [[= _ ->]|Hx]; [assumption|].
  apply H, elem_of_map_values. eauto.
Qed.

Lemma Forall_values_merge (R : InstallingBlock -> Prop) subDeps blocks :
  Forall R subDeps -> Forall R (map_values blocks) ->
  Forall R (map_values (mergeDeps subDeps blocks)).
Proof.
  unfold mergeDeps. intros Hs. revert blocks.
  induction Hs as [|d ds Hd _ IH]; intros blocks H; simpl; [assumption|].
  apply IH, Forall_values_set; assumption.
Qed.

Lemma resolveLoop_Forall (R : InstallingBlock -> Prop) rec installed :
  (forall b, R (mkInstalling (name (block b)) false b)) ->
  (forall specs i out, rec specs i = Some (Ok out) -> Forall R out) ->
  forall specs blocks out,
    Forall R (map_values blocks) ->
    resolveLoop rec installed specs blocks = Some (Ok out) ->
    Forall R out.
Proof.
  intros Hnew Hrec specs.
  induction specs as [|s rest IH]; intros blocks out Hb; simpl.
  - intros [= <-]. assumption.
  - destruct (findBlock s) as [b|e]; [|discriminate].
    pose proof (Forall_values_set R (remoteSpecifier b) _ blocks (Hnew b) Hb) as Hb1.
    destruct (localDependencies (block b)) as [|d ds]; [eauto|].
    destruct (rec _ _) as [[subDeps|e]|] eqn:Hsub; [|discriminate..].
    apply IH, Forall_values_merge; eauto.
Qed.

Lemma resolveTree_Forall (R : InstallingBlock -> Prop) :
  (forall b, R (mkInstalling (name (block b)) false b)) ->
  forall fuel specs installed out,
    resolveTree fuel specs installed = Some (Ok out) -> Forall R out.
Proof.
  intros Hnew fuel.
  induction fuel as [|fuel IH]; intros specs installed out; simpl.
  - discriminate.
  - apply resolveLoop_Forall; auto.
Qed.

(** Whatever the request, no returned entry is marked as a
    sub-dependency: line 74 writes [false] and line 87 stores the entries
    of the recursive call unchanged. *)
Lemma resolveTree_subDependency_false fuel specs installed out :
  resolveTree fuel specs installed = Some (Ok out) ->
  Forall (fun ib => subDependency ib = false) out.
Proof. apply resolveTree_Forall. reflexivity. Qed.

(** The entry line 74 writes for a resolved block. *)
Local Abbreviation direct b := (mkInstalling (name (block b)) false b).

(** *** The returned entries are closed under local dependencies *)

Lemma accounted_mono installed returned returned' dep :
  (forall x, x ∈ returned -> x ∈ returned') ->
  accounted installed returned dep ->
  accounted installed returned' dep.
Proof.
  intros Hsub [H|[H|(b & Hb & H)]]; [left; exact H | right; left; auto |].
  right. right. eauto.
Qed.

Lemma map_keys_set_incl k (v : InstallingBlock) blocks x :
  x ∈ map_keys blocks -> x ∈ map_keys (map_set k v blocks).
Proof.
  rewrite map_keys_set. destruct (map_has k blocks); [auto|].
  rewrite elem_of_app. auto.
Qed.

Lemma map_keys_set_here k (v : InstallingBlock) blocks :
  k ∈ map_keys (map_set k v blocks).
Proof.
  rewrite map_keys_set. destruct (map_has k blocks) eqn:Hk.
  - apply map_has_true, Hk.
  - rewrite elem_of_app, list_elem_of_singleton. auto.
Qed.

Lemma map_keys_merge subDeps : forall blocks x,
  x ∈ map_keys blocks \/ x ∈ specifiers subDeps ->
  x ∈ map_keys (mergeDeps subDeps blocks).
Proof.
  unfold mergeDeps, specifiers.
  induction subDeps as [|d ds IH]; intros blocks x; csimpl.
  - rewrite elem_of_nil. tauto.
  - rewrite elem_of_cons. intros [H|[->|H]]; apply IH; auto.
    + left. apply map_keys_set_incl, H.
    + left. apply map_keys_set_here.
Qed.

Lemma elem_of_mergeDeps subDeps : forall blocks kv,
  kv ∈ mergeDeps subDeps blocks ->
  kv ∈ blocks \/ (snd kv ∈ subDeps /\ fst kv = remoteSpecifier (ib_block (snd kv))).
Proof.
  unfold mergeDeps.
  induction subDeps as [|d ds IH]; intros blocks kv; simpl; [auto|].
  intros [[->|H]%elem_of_map_set|[H1 H2]]%IH; [| auto |].
  - right. simpl. split; [apply list_elem_of_here | reflexivity].
  - right. split; [apply elem_of_cons; auto | exact H2].
Qed.

Lemma elem_of_pendingDeps b blocks installed dep :
  dep ∈ pendingDeps b blocks installed <->
  dep ∈ localDependencies (block b)
  /\ map_has dep blocks = false /\ map_has dep installed = false.
Proof.
  unfold pendingDeps. rewrite !list_elem_of_In, filter_In, andb_true_iff,
    !negb_true_iff. tauto.
Qed.

Lemma resolveLoop_closed rec installed :
  (forall specs i out, rec specs i = Some (Ok out) -> closedResult specs i out) ->
  forall specs blocks out,
    keyed blocks -> closedBatch installed blocks ->
    resolveLoop rec installed specs blocks = Some (Ok out) ->
    (forall k, k ∈ map_keys blocks -> k ∈ specifiers out)
    /\ closedResult specs installed out.
Proof.
  intros Hrec specs. unfold Resolver.closedResult, Resolver.closedBatch in *.
  induction specs as [|s rest IH]; intros blocks out Hkeyed Hclosed; simpl.
  - intros [= <-]. rewrite keyed_values_keys by assumption.
    split; [auto|]. split.
    + intros s Hs. apply elem_of_nil in Hs as [].
    + intros ib dep (k & Hib)%elem_of_map_values. exact (Hclosed (k, ib) dep Hib).
  - destruct (findBlock s) as [b|e] eqn:Hfind; [|discriminate].
    set (blocks1 := map_set (remoteSpecifier b) (direct b) blocks).
    assert (Hkeyed1 : keyed blocks1) by exact (keyed_set blocks (direct b) Hkeyed).
    assert (Hold : forall kv dep,
               kv ∈ blocks ->
               dep ∈ localDependencies (block (ib_block (snd kv))) ->
               accounted installed
                         (map_keys blocks1) dep).
    { intros kv dep Hkv Hdep. eapply accounted_mono; [|exact (Hclosed kv dep Hkv Hdep)].
      intros x. apply map_keys_set_incl. }
    assert (Hfinish : forall blocks2,
               keyed blocks2 -> closedBatch installed blocks2 ->
               (forall k, k ∈ map_keys blocks1 -> k ∈ map_keys blocks2) ->
               resolveLoop rec installed rest blocks2 = Some (Ok out) ->
               (forall k, k ∈ map_keys blocks -> k ∈ specifiers out)
               /\ closedResult (s :: rest) installed out).
    { intros blocks2 Hk2 Hc2 Hincl Hrun.
      destruct (IH blocks2 out Hk2 Hc2 Hrun) as (Hkeys & Hreq & Hdeps).
      split; [|split].
      - intros k Hk. apply Hkeys, Hincl, map_keys_set_incl, Hk.
      - intros s' [->|Hs']%elem_of_cons; [|auto].
        exists b. split; [exact Hfind|]. apply Hkeys, Hincl, map_keys_set_here.
      - exact Hdeps. }
    destruct (localDependencies (block b)) as [|d ds] eqn:Hdeps.
    + apply Hfinish; [exact Hkeyed1| |auto].
      intros kv dep [->|Hkv]%elem_of_map_set Hdep; [|eauto].
      simpl in Hdep. rewrite Hdeps in Hdep. apply elem_of_nil in Hdep as [].
    + destruct (rec _ _) as [[subDeps|e]|] eqn:Hsub; [|discriminate..].
      destruct (Hrec _ _ _ Hsub) as [Hsubreq Hsubdeps].
      apply Hfinish.
      * apply keyed_merge, Hkeyed1.
      * intros kv dep [[->|Hkv]%elem_of_map_set|[Hkv _]]%elem_of_mergeDeps Hdep.
        -- simpl in Hdep.
           destruct (map_has dep blocks1) eqn:H1.
           { right. left. apply map_keys_merge. left. apply map_has_true, H1. }
           destruct (map_has dep installed) eqn:H2; [left; exact H2|].
           destruct (Hsubreq dep) as (b' & Hb' & Hin).
           { apply elem_of_pendingDeps. auto. }
           right. right. exists b'. split; [exact Hb'|]. apply map_keys_merge. auto.
        -- eapply accounted_mono; [|exact (Hold kv dep Hkv Hdep)].
           intros x Hx. apply map_keys_merge. auto.
        -- destruct (Hsubdeps (snd kv) dep Hkv Hdep) as [H|[H|(b' & Hb' & H)]].
           ++ right. left. apply map_keys_merge. left. apply map_has_true, H.
           ++ right. left. apply map_keys_merge. auto.
           ++ right. right. exists b'. split; [exact Hb'|]. apply map_keys_merge. auto.
      * intros k Hk. apply map_keys_merge. auto.
Qed.

(** A successful call returns an entry for the block of every requested
    specifier, and for every local dependency of every returned block that
    is not in [installed] (under the dependency's own name or under the
    specifier of the block it resolves to). *)
Lemma resolveTree_closed fuel : forall specs installed out,
  resolveTree fuel specs installed = Some (Ok out) ->
  closedResult specs installed out.
Proof.
  induction fuel as [|fuel IH]; intros specs installed out; simpl; [discriminate|].
  intros Hrun.
  refine (proj2 (resolveLoop_closed (resolveTree fuel) installed IH specs [] out _ _ Hrun)).
  - constructor.
  - intros kv dep Hkv. apply elem_of_nil in Hkv as [].
Qed.

(** With nothing installed, the returned entries cover the transitive
    local dependencies of the requested blocks. *)
Lemma resolveTree_transitive fuel specs out :
  resolveTree fuel specs [] = Some (Ok out) ->
  (forall s, s ∈ specs ->
     exists b, findBlock s = Ok b /\ remoteSpecifier b ∈ specifiers out)
  /\ (forall ib dep,
        ib ∈ out -> dep ∈ localDependencies (block (ib_block ib)) ->
        dep ∈ specifiers out
        \/ exists b, findBlock dep = Ok b /\ remoteSpecifier b ∈ specifiers out).
Proof.
  intros [Hreq Hdeps]%resolveTree_closed. split; [exact Hreq|].
  intros ib dep Hib Hdep. destruct (Hdeps ib dep Hib Hdep) as [H|H]; [discriminate|exact H].
Qed.

(** *** Cycles of local dependencies *)

(** One round of the loop for a block with a single local dependency
    that is neither in the batch nor in [installed]. *)
Lemma resolveLoop_single_dep rec installed s b dep :
  findBlock s = Ok b ->
  localDependencies (block b) = [dep] ->
  remoteSpecifier b <> dep ->
  map_has dep installed = false ->
  resolveLoop rec installed [s] [] =
    match rec [dep] [(remoteSpecifier b, direct b)] with
    | None => None
    | Some (Err e) => Some (Err e)
    | Some (Ok subDeps) =>
        Some (Ok (map_values (mergeDeps subDeps [(remoteSpecifier b, direct b)])))
    end.
Proof.
  intros Hfind Hdeps Hne Hinst. simpl. rewrite Hfind, Hdeps.
  unfold pendingDeps. rewrite Hdeps. simpl. rewrite Hinst.
  destruct (String.eqb_spec dep (remoteSpecifier b)) as [->|_]; [congruence|].
  simpl. destruct (rec _ _) as [[subDeps|e]|]; reflexivity.
Qed.

(** The same round when the dependency is already in [installed]: the
    recursive call still happens (the unfiltered list is not empty), on
    an empty list of specifiers. *)
Lemma resolveLoop_single_dep_installed rec installed s b dep :
  findBlock s = Ok b ->
  localDependencies (block b) = [dep] ->
  map_has dep installed = true ->
  resolveLoop rec installed [s] [] =
    match rec [] [(remoteSpecifier b, direct b)] with
    | None => None
    | Some (Err e) => Some (Err e)
    | Some (Ok subDeps) =>
        Some (Ok (map_values (mergeDeps subDeps [(remoteSpecifier b, direct b)])))
    end.
Proof.
  intros Hfind Hdeps Hinst. simpl. rewrite Hfind, Hdeps.
  unfold pendingDeps. rewrite Hdeps. simpl. rewrite Hinst, andb_false_r.
  destruct (rec _ _) as [[subDeps|e]|]; reflexivity.
Qed.

(** A depends on B and B on A: requesting A returns A and B, once each. *)
Lemma resolveTree_two_cycle req a b fuel :
  findBlock req = Ok a ->
  findBlock (remoteSpecifier b) = Ok b ->
  localDependencies (block a) = [remoteSpecifier b] ->
  localDependencies (block b) = [remoteSpecifier a] ->
  remoteSpecifier a <> remoteSpecifier b ->
  resolveTree (3 + fuel) [req] [] = Some (Ok [direct a; direct b]).
Proof.
  intros Ha Hb Hda Hdb Hne.
  change (resolveTree (3 + fuel) [req] [])
    with (resolveLoop (resolveTree (2 + fuel)) [] [req] []).
  rewrite (resolveLoop_single_dep _ [] _ _ _ Ha Hda Hne eq_refl).
  change (resolveTree (2 + fuel) [remoteSpecifier b] ?i)
    with (resolveLoop (resolveTree (1 + fuel)) i [remoteSpecifier b] []).
  rewrite (resolveLoop_single_dep_installed _ _ _ _ _ Hb Hdb).
  - simpl. destruct (String.eqb_spec (remoteSpecifier b) (remoteSpecifier a));
      [congruence | reflexivity].
  - simpl. rewrite String.eqb_refl. reflexivity.
Qed.

(** A depends on B, B on C and C on A: the recursive call passes only the
    caller's own batch as [installed], so the call for C no longer knows
    about A and the recursion never comes back. *)
Lemma resolveTree_three_cycle_diverges a b c :
  findBlock (remoteSpecifier a) = Ok a ->
  findBlock (remoteSpecifier b) = Ok b ->
  findBlock (remoteSpecifier c) = Ok c ->
  localDependencies (block a) = [remoteSpecifier b] ->
  localDependencies (block b) = [remoteSpecifier c] ->
  localDependencies (block c) = [remoteSpecifier a] ->
  remoteSpecifier a <> remoteSpecifier b ->
  remoteSpecifier b <> remoteSpecifier c ->
  remoteSpecifier c <> remoteSpecifier a ->
  forall fuel installed,
    (map_has (remoteSpecifier b) installed = false ->
     resolveTree fuel [remoteSpecifier a] installed = None) /\
    (map_has (remoteSpecifier c) installed = false ->
     resolveTree fuel [remoteSpecifier b] installed = None) /\
    (map_has (remoteSpecifier a) installed = false ->
     resolveTree fuel [remoteSpecifier c] installed = None).
Proof.
  intros Ha Hb Hc Hda Hdb Hdc Hab Hbc Hca fuel.
  assert (Hfresh : forall x y (v : InstallingBlock),
             x <> y -> map_has x [(y, v)] = false).
  { intros x y v Hxy. simpl. destruct (String.eqb_spec x y); [congruence|reflexivity]. }
  induction fuel as [|fuel IH]; intros installed; [repeat split; reflexivity|].
  repeat split; intros Hinst;
    change (resolveTree (S fuel) ?l installed)
      with (resolveLoop (resolveTree fuel) installed l []).
  - rewrite (resolveLoop_single_dep _ _ _ _ _ Ha Hda Hab Hinst).
    destruct (IH [(remoteSpecifier a, direct a)]) as (_ & -> & _); auto.
  - rewrite (resolveLoop_single_dep _ _ _ _ _ Hb Hdb Hbc Hinst).
    destruct (IH [(remoteSpecifier b, direct b)]) as (_ & _ & ->); auto.
  - rewrite (resolveLoop_single_dep _ _ _ _ _ Hc Hdc Hca Hinst).
    destruct (IH [(remoteSpecifier c, direct c)]) as (-> & _ & _); auto.
Qed.

(** *** Specifiers that cannot be resolved *)

Lemma findInRepos_None s repos :
  (forall providerState, providerState ∈ repos ->
     lookupInRepo url_join blocksMap s providerState = None) ->
  findInRepos url_join blocksMap s repos = None.
Proof.
  induction repos as [|ps rest IH]; intros Hall; simpl; [reflexivity|].
  rewrite (Hall ps) by apply list_elem_of_here.
  apply IH. intros ps' Hps'. apply Hall, elem_of_cons. auto.
Qed.

(** What lines 32-70 answer for a bare specifier no repo has. *)
Lemma findBlock_bare_missing s :
  selectProvider s = None ->
  (forall providerState, providerState ∈ repoPaths ->
     lookupInRepo url_join blocksMap s providerState = None) ->
  findBlock s =
    Err (match repoPaths with
         | [] => NoRepositoryConfigured s
         | _ :: _ => BlockNotFound s
         end).
Proof.
  intros Hsel Hall. unfold Resolver.findBlock. rewrite Hsel.
  destruct repoPaths as [|ps rest] eqn:Hrepos; [reflexivity|].
  rewrite findInRepos_None; [reflexivity|]. exact Hall.
Qed.

(** The loop stops at the first specifier that does not resolve. *)
Lemma resolveLoop_stops rec installed pre s post e : forall blocks out,
  findBlock s = Err e ->
  resolveLoop rec installed pre blocks = Some (Ok out) ->
  resolveLoop rec installed (pre ++ s :: post) blocks = Some (Err e).
Proof.
  induction pre as [|p pre IH]; intros blocks out Hs; simpl.
  - rewrite Hs. reflexivity.
  - destruct (findBlock p) as [b|e']; [|discriminate].
    destruct (localDependencies (block b)) as [|d ds]; [apply IH, Hs|].
    destruct (rec _ _) as [[subDeps|e']|]; [|discriminate..].
    apply IH, Hs.
Qed.

(** A call that lists a specifier which does not resolve never succeeds. *)
Lemma resolveLoop_not_Ok rec installed s e specs : forall blocks out,
  findBlock s = Err e -> s ∈ specs ->
  resolveLoop rec installed specs blocks <> Some (Ok out).
Proof.
  induction specs as [|p rest IH]; intros blocks out Hs Hin; simpl.
  - apply elem_of_nil in Hin as [].
  - destruct (findBlock p) as [b|e'] eqn:Hp; [|discriminate].
    assert (Hrest : s ∈ rest).
    { apply elem_of_cons in Hin as [->|Hin]; [congruence|exact Hin]. }
    destruct (localDependencies (block b)) as [|d ds]; [apply IH; assumption|].
    destruct (rec _ _) as [[subDeps|e']|]; [|discriminate..].
    apply IH; assumption.
Qed.

(** C6, amended: when the loop reaches a bare specifier (every specifier
    before it resolves, with its dependencies) that no configured repo
    has, the whole call fails: with [NoRepositoryConfigured] if no repo is
    configured, with [BlockNotFound] otherwise; and a call that lists
    such a specifier anywhere never returns a list of blocks. *)
Theorem resolveTree_bare_specifier_unresolved fuel pre s post installed out :
  selectProvider s = None ->
  (forall providerState, providerState ∈ repoPaths ->
     lookupInRepo url_join blocksMap s providerState = None) ->
  resolveTree fuel pre installed = Some (Ok out) ->
  resolveTree fuel (pre ++ s :: post) installed =
    Some (Err (match repoPaths with
               | [] => NoRepositoryConfigured s
               | _ :: _ => BlockNotFound s
               end))
  /\ forall fuel' specs installed' out',
       s ∈ specs -> resolveTree fuel' specs installed' <> Some (Ok out').
Proof.
  intros Hsel Hall Hpre.
  pose proof (findBlock_bare_missing s Hsel Hall) as Hs.
  split.
  - destruct fuel as [|fuel]; [discriminate|].
    simpl in *. eapply resolveLoop_stops; eassumption.
  - intros [|fuel'] specs installed' out' Hin; [discriminate|].
    simpl. eapply resolveLoop_not_Ok; eassumption.
Qed.

End ResolverFacts.

(** ** Block graph builder *)

Section BuilderFacts.
Import Builder.
Variable path : PathApi.
Variable languages : list Lang.
Variable opts : Options.

Local Abbreviation walkEntry := (walkEntry path languages opts).
Local Abbreviation walkFiles := (walkFiles path languages opts).
Local Abbreviation buildFileBlock := (buildFileBlock path languages opts).
Local Abbreviation buildDirectoryBlock := (buildDirectoryBlock path languages opts).
Local Abbreviation buildBlock := (buildBlock path languages opts).
Local Abbreviation buildCategory := (buildCategory path languages opts).
Local Abbreviation buildBlocksDirectory := (buildBlocksDirectory path languages opts).

(** *** The monad of warnings and fatal errors *)

Lemma bind_Ok {A B} (m : M A) (k : A -> M B) log b log' :
  bind m k log = Ok (b, log') <->
  exists a log1, m log = Ok (a, log1) /\ k a log1 = Ok (b, log').
Proof.
  unfold bind. destruct (m log) as [[a log1]|e]; split.
  - eauto.
  - intros (a' & l' & [= -> ->] & H). exact H.
  - discriminate.
  - intros (a' & l' & [=] & _).
Qed.

Lemma ret_Ok {A} (a b : A) log log' :
  ret a log = Ok (b, log') <-> a = b /\ log = log'.
Proof. unfold ret. split; [intros [= -> ->]; auto | intros [-> ->]; auto]. Qed.

(** A loop keeps what every round keeps. *)
Lemma forOf_invariant {A S} (I : S -> list Warning -> Prop) (body : A -> S -> M S) l :
  (forall x s log s' log',
      x ∈ l -> I s log -> body x s log = Ok (s', log') -> I s' log') ->
  forall s log s' log',
    I s log -> forOf body l s log = Ok (s', log') -> I s' log'.
Proof.
  induction l as [|x rest IH]; intros Hbody s log s' log' HI; simpl.
  - intros [-> ->]%ret_Ok. assumption.
  - intros (s1 & log1 & H1 & H2)%bind_Ok.
    eapply IH; [| |exact H2].
    + intros. eapply Hbody; eauto. apply elem_of_cons. auto.
    + eapply Hbody; eauto. apply list_elem_of_here.
Qed.

(** *** Sets of specifiers *)

Lemma elem_of_set_add x y s : x ∈ set_add y s <-> x = y \/ x ∈ s.
Proof.
  induction s as [|z s IH]; simpl.
  - rewrite list_elem_of_singleton, elem_of_nil. tauto.
  - destruct (String.eqb_spec y z) as [->|Hne].
    + rewrite elem_of_cons. intuition.
    + rewrite !elem_of_cons, IH. tauto.
Qed.

Lemma elem_of_addLocal self deps : forall s x,
  x ∈ addLocal self deps s <-> (x ∈ deps /\ x <> self) \/ x ∈ s.
Proof.
  unfold addLocal.
  induction deps as [|d ds IH]; intros s x; simpl.
  - rewrite elem_of_nil. tauto.
  - rewrite IH, elem_of_cons.
    destruct (String.eqb_spec d self) as [->|Hne].
    + intuition congruence.
    + rewrite elem_of_set_add. intuition congruence.
Qed.

(** *** Induction on source trees *)

Lemma FsNode_tree_ind (P : FsNode -> Prop) :
  P File ->
  (forall entries, Forall (fun e => P (snd e)) entries -> P (Dir entries)) ->
  forall node, P node.
Proof.
  intros HFile HDir.
  fix rec 1. intros [|entries]; [exact HFile|].
  apply HDir. induction entries as [|e rest IH]; constructor.
  - apply rec.
  - exact IH.
Qed.

Lemma walkEntry_unfold categoryName blockName blockDir base f node st :
  walkEntry categoryName blockName blockDir base f node st =
    let filePath := join path [base; f] in
    let relativeFilePath := relative path (join path [cwd opts; blockDir]) filePath in
    if isTestFile f then
      ret (mkWalk (localDepsSet st) (depsSet st) (devDepsSet st) (ws_imports st)
                  true (blockFiles st ++ [relativeFilePath]))
    else
      match node with
      | Dir subFiles =>
          if negb (allowSubdirectories (config opts)) then
            _ <- warn (SubdirectoriesNotAllowed (join path [blockDir; f])) ;;
            ret st
          else walkFiles categoryName blockName blockDir filePath subFiles st
      | File =>
          match findLang languages f with
          | None =>
              _ <- warn (UnsupportedFile filePath (parse_ext path f)) ;;
              ret st
          | Some lang =>
              match resolveDependencies lang
                      (mkResolveOptions filePath true (excludeDeps (config opts))
                         (dirs (config opts)) (cwd opts) (Some blockDir)) with
              | Err err => program_error (ResolveFailed err)
              | Ok r =>
                  ret (mkWalk
                         (addLocal (specifierOf categoryName blockName) (local r)
                                   (localDepsSet st))
                         (addAll (rd_dependencies r) (depsSet st))
                         (addAll (rd_devDependencies r) (devDepsSet st))
                         (assignAll (rd_imports r) (ws_imports st))
                         (hasTests st)
                         (blockFiles st ++ [relativeFilePath]))
              end
          end
      end.
Proof. destruct node; reflexivity. Qed.

(** *** The subdirectory walk never records the block itself (line 207) *)

Lemma walkEntry_no_self categoryName blockName blockDir node :
  forall base f st log st' log',
    specifierOf categoryName blockName ∉ localDepsSet st ->
    walkEntry categoryName blockName blockDir base f node st log = Ok (st', log') ->
    specifierOf categoryName blockName ∉ localDepsSet st'.
Proof.
  induction node as [|entries IH] using FsNode_tree_ind;
    intros base f st log st' log' Hst; rewrite walkEntry_unfold; cbv zeta;
    destruct (isTestFile f);
    try (intros [<- _]%ret_Ok; exact Hst).
  - destruct (findLang languages f) as [lang|].
    + destruct (resolveDependencies lang _) as [r|err]; [|discriminate].
      intros [<- _]%ret_Ok. simpl. rewrite elem_of_addLocal. tauto.
    + intros (? & ? & _ & [<- _]%ret_Ok)%bind_Ok. exact Hst.
  - destruct (negb _).
    + intros (? & ? & _ & [<- _]%ret_Ok)%bind_Ok. exact Hst.
    + unfold Builder.walkFiles.
      set (body := fun (e : string * FsNode) st' => walkEntry _ _ _ _ (fst e) (snd e) st').
      intros Hwalk.
      refine (forOf_invariant
                (fun s _ => specifierOf categoryName blockName ∉ localDepsSet s)
                body entries _ st log st' log' Hst Hwalk).
      intros e s l s' l' Hin Hs Hbody.
      rewrite Forall_forall in IH. exact (IH e Hin _ _ _ _ _ _ Hs Hbody).
Qed.

Lemma walkFiles_no_self categoryName blockName blockDir base files st log st' log' :
  specifierOf categoryName blockName ∉ localDepsSet st ->
  walkFiles categoryName blockName blockDir base files st log = Ok (st', log') ->
  specifierOf categoryName blockName ∉ localDepsSet st'.
Proof.
  intros Hst. unfold Builder.walkFiles.
  apply (forOf_invariant
           (fun s _ => specifierOf categoryName blockName ∉ localDepsSet s)); [|exact Hst].
  intros e s l s' l' _ Hs. apply walkEntry_no_self. exact Hs.
Qed.

(** *** What the two kinds of block look like *)

Lemma buildFileBlock_Some categoryName categoryDir listCategory siblings file log b log' :
  buildFileBlock categoryName categoryDir listCategory siblings file log
    = Ok (Some b, log') ->
  subdirectory b = false /\ category b = categoryName
  /\ name b = transformBlockName path file
  /\ head (files b) = Some file
  /\ list_ b = (if listCategory then shouldListBlock (name b) (config opts) else false)
  /\ exists lang r,
       findLang languages file = Some lang
       /\ resolveDependencies lang
            (mkResolveOptions (join path [categoryDir; file]) false
               (excludeDeps (config opts)) (dirs (config opts)) (cwd opts) None) = Ok r
       /\ localDependencies b = local r.
Proof.
  unfold Builder.buildFileBlock.
  destruct (isTestFile file); [intros [[=] _]%ret_Ok|].
  destruct (negb _); [intros [[=] _]%ret_Ok|].
  destruct (findLang languages file) as [lang|];
    [|intros (? & ? & _ & [[=] _]%ret_Ok)%bind_Ok].
  destruct (resolveDependencies lang _) as [r|err] eqn:Hr; [|discriminate].
  intros [[= <-] _]%ret_Ok. simpl. repeat split; eauto.
Qed.

Lemma buildDirectoryBlock_Some categoryName categoryDir listCategory file children
    log b log' :
  buildDirectoryBlock categoryName categoryDir listCategory file children log
    = Ok (Some b, log') ->
  subdirectory b = true /\ category b = categoryName /\ name b = file
  /\ list_ b = (if listCategory then shouldListBlock file (config opts) else false)
  /\ exists st,
       walkFiles categoryName file (join path [categoryDir; file])
                 (join path [categoryDir; file]) children emptyWalk log = Ok (st, log')
       /\ files b = blockFiles st
       /\ localDependencies b = localDepsSet st
       /\ dependencies b = depsSet st
       /\ devDependencies b = devDepsSet st
       /\ imports_ b = ws_imports st.
Proof.
  unfold Builder.buildDirectoryBlock.
  destruct (negb _); [intros [[=] _]%ret_Ok|].
  intros (st & log1 & Hwalk & [[= <-] <-]%ret_Ok)%bind_Ok. simpl.
  repeat split; eauto 10.
Qed.

(** *** Every block of the output comes from one of the two paths *)

Lemma buildBlocksDirectory_blocks (P : string -> Block -> Prop) :
  (forall categoryName categoryDir files file log b log',
      buildFileBlock categoryName categoryDir
        (shouldListCategory categoryName (config opts)) files file log
        = Ok (Some b, log') ->
      P categoryName b) ->
  (forall categoryName categoryDir file children log b log',
      buildDirectoryBlock categoryName categoryDir
        (shouldListCategory categoryName (config opts)) file children log
        = Ok (Some b, log') ->
      P categoryName b) ->
  forall blocksPath root log categories log',
    buildBlocksDirectory blocksPath root log = Ok (categories, log') ->
    forall c b, c ∈ categories -> b ∈ blocks c -> P (cat_name c) b.
Proof.
  intros HFile HDir blocksPath root log categories log'.
  destruct root as [|paths]; simpl; [discriminate|].
  intros Hrun.
  refine (forOf_invariant
            (fun cs _ => forall c b, c ∈ cs -> b ∈ blocks c -> P (cat_name c) b)
            _ paths _ [] log categories log' _ Hrun).
  2: { intros c b Hc. apply elem_of_nil in Hc as []. }
  intros e cs l cs' l' _ Hcs. unfold Builder.buildCategory.
  destruct (snd e) as [|files]; [intros [<- _]%ret_Ok; exact Hcs|].
  destruct (ignores opts _); [intros [<- _]%ret_Ok; exact Hcs|].
  destruct (negb _); [intros [<- _]%ret_Ok; exact Hcs|].
  intros (bs & l1 & Hbs & [<- _]%ret_Ok)%bind_Ok.
  intros c b [Hc|Hc%list_elem_of_singleton]%elem_of_app; [exact (Hcs c b Hc)|].
  subst c. simpl.
  set (categoryName := basename path (fst e)) in *.
  revert b.
  refine (forOf_invariant (fun bs _ => forall b, b ∈ bs -> P categoryName b)
            _ files _ [] l bs l1 _ Hbs).
  2: { intros b Hb. apply elem_of_nil in Hb as []. }
  intros e' bs0 l0 bs' l0' _ Hbs0. unfold Builder.buildBlock.
  intros (ob & l2 & Hob & [<- _]%ret_Ok)%bind_Ok.
  destruct ob as [b'|]; [|exact Hbs0].
  intros b [Hb|Hb%list_elem_of_singleton]%elem_of_app; [exact (Hbs0 b Hb)|].
  subst b. destruct (snd e'); eauto.
Qed.

(** X14: in a built subdirectory block the local dependencies leave out
    the block's own specifier. *)
Lemma subdirectory_block_no_self blocksPath root log categories log' c b :
  buildBlocksDirectory blocksPath root log = Ok (categories, log') ->
  c ∈ categories -> b ∈ blocks c ->
  subdirectory b = true ->
  blockSpecifier b ∉ localDependencies b.
Proof.
  intros Hrun Hc Hb.
  refine (buildBlocksDirectory_blocks
            (fun _ b => subdirectory b = true -> blockSpecifier b ∉ localDependencies b)
            _ _ _ _ _ _ _ Hrun c b Hc Hb).
  - intros cn cd fs f l b0 l' (Hsub & _)%buildFileBlock_Some. congruence.
  - intros cn cd f ch l b0 l'
      (_ & Hcat & Hname & _ & st & Hwalk & _ & Hloc & _)%buildDirectoryBlock_Some _.
    unfold blockSpecifier. rewrite Hcat, Hname, Hloc.
    eapply walkFiles_no_self; [|exact Hwalk]. apply not_elem_of_nil.
Qed.

(** *** Where a block of the output comes from *)



(** *** Files of a block *)


(** *** Listing *)

(** C10: a block of the output is listed only if its category is: when
    [shouldListCategory] says no for the category's name, every block
    built in it has [list = false], whatever the block-level lists say. *)
Theorem block_listed_only_in_listed_category blocksPath root log categories log' c b :
  buildBlocksDirectory blocksPath root log = Ok (categories, log') ->
  c ∈ categories -> b ∈ blocks c ->
  category b = cat_name c
  /\ (list_ b = true -> shouldListCategory (category b) (config opts) = true)
  /\ (shouldListCategory (cat_name c) (config opts) = false -> list_ b = false).
Proof.
  intros Hrun Hc Hb.
  refine (buildBlocksDirectory_blocks
            (fun cn b =>
               category b = cn
               /\ (list_ b = true -> shouldListCategory (category b) (config opts) = true)
               /\ (shouldListCategory cn (config opts) = false -> list_ b = false))
            _ _ _ _ _ _ _ Hrun c b Hc Hb).
  - intros cn cd fs f l b0 l' (_ & Hcat & _ & _ & Hlist & _)%buildFileBlock_Some.
    rewrite Hcat, Hlist.
    destruct (shouldListCategory cn _); repeat split; intros; congruence.
  - intros cn cd f ch l b0 l' (_ & Hcat & _ & Hlist & _)%buildDirectoryBlock_Some.
    rewrite Hcat, Hlist.
    destruct (shouldListCategory cn _); repeat split; intros; congruence.
Qed.

(** *** Directories when subdirectories are not allowed *)

Section NotAllowed.
Hypothesis not_allowed : allowSubdirectories (config opts) = false.




End NotAllowed.


End BuilderFacts.

(** ** Pruning filter *)

Section PruneFacts.
Import Prune.
Implicit Types (categories cs : list Category) (b : Block) (c : Category).

Lemma includes_true (l : list string) x : includes l x = true <-> x ∈ l.
Proof.
  unfold includes. rewrite existsb_exists. split.
  - intros (y & Hy & ->%String.eqb_eq). apply list_elem_of_In, Hy.
  - intros Hx. exists x. rewrite String.eqb_refl. split; [apply list_elem_of_In, Hx|auto].
Qed.

Lemma elem_of_allBlocks categories b : b ∈ allBlocks categories <-> inGraph categories b.
Proof.
  unfold allBlocks, inGraph. rewrite list_elem_of_In, in_flat_map. split.
  - intros (c & Hc & Hb). exists c. rewrite !list_elem_of_In. auto.
  - intros (c & Hc & Hb). exists c. rewrite <- !list_elem_of_In. auto.
Qed.

(** *** Chains of bounded length *)

Lemma dependedOnWithin_S n specifier categories :
  dependedOnWithin (S n) specifier categories = true <->
  exists b, inGraph categories b /\ blockSpecifier b <> specifier
            /\ specifier ∈ localDependencies b
            /\ (list_ b = true
                \/ dependedOnWithin n (blockSpecifier b) categories = true).
Proof.
  simpl. rewrite existsb_exists. split.
  - intros (b & Hb%list_elem_of_In%elem_of_allBlocks & H).
    apply andb_true_iff in H as [H Hlast%orb_true_iff].
    apply andb_true_iff in H as [Hne%negb_true_iff%String.eqb_neq Hin%includes_true].
    eauto 10.
  - intros (b & Hb & Hne & Hin & Hlast). exists b.
    split; [apply list_elem_of_In, elem_of_allBlocks, Hb|].
    rewrite !andb_true_iff, orb_true_iff, negb_true_iff, String.eqb_neq, includes_true.
    auto.
Qed.

Lemma dependedOnWithin_mono categories n : forall specifier,
  dependedOnWithin n specifier categories = true ->
  dependedOnWithin (S n) specifier categories = true.
Proof.
  induction n as [|n IH]; intros specifier; [discriminate|].
  rewrite (dependedOnWithin_S (S n)), dependedOnWithin_S.
  intros (b & Hb & Hne & Hin & [Hl|Hd]); exists b; auto 10.
Qed.

Lemma dependedOnWithin_le categories n m specifier :
  n <= m ->
  dependedOnWithin n specifier categories = true ->
  dependedOnWithin m specifier categories = true.
Proof.
  induction 1 as [|m _ IH]; [auto|]. intros H. apply dependedOnWithin_mono, IH, H.
Qed.

Lemma dependedOnWithin_DependedOn categories n : forall specifier,
  dependedOnWithin n specifier categories = true -> DependedOn categories specifier.
Proof.
  induction n as [|n IH]; intros specifier; [discriminate|].
  intros (b & Hb & Hne & Hin & [Hl|Hd])%dependedOnWithin_S.
  - exact (by_listed categories b specifier Hb Hne Hin Hl).
  - exact (by_dependency categories b specifier Hb Hne Hin (IH _ Hd)).
Qed.

Lemma DependedOn_dependedOnWithin categories specifier :
  DependedOn categories specifier ->
  exists n, dependedOnWithin n specifier categories = true.
Proof.
  induction 1 as [b s Hb Hne Hin Hl | b s Hb Hne Hin _ [n IH]].
  - exists 1. apply dependedOnWithin_S. eauto 10.
  - exists (S n). apply dependedOnWithin_S. eauto 10.
Qed.

(** *** Chains need not be longer than the manifest

    Each round of [dependedOnWithin] that still finds a new specifier marks
    a block that was not marked before, and there are only so many
    blocks. *)

(** The blocks round [n] counts as surviving. *)
Local Abbreviation marked categories n :=
  (fun b => list_ b || dependedOnWithin n (blockSpecifier b) categories).

(** Round [n + 1] marks no block that round [n] did not. *)
Local Abbreviation settled categories n :=
  (forall b, inGraph categories b -> marked categories (S n) b = marked categories n b).

Lemma settled_round categories n :
  settled categories n ->
  forall specifier,
    dependedOnWithin (S (S n)) specifier categories
    = dependedOnWithin (S n) specifier categories.
Proof.
  intros Hset specifier. apply eq_true_iff_eq.
  rewrite (dependedOnWithin_S (S n)), (dependedOnWithin_S n).
  split; intros (b & Hb & Hne & Hin & Hlast); exists b;
    (split; [exact Hb|]); (split; [exact Hne|]); (split; [exact Hin|]);
    pose proof (Hset b Hb) as Heq; apply orb_true_iff;
    apply orb_true_iff in Hlast; [rewrite <- Heq | rewrite Heq]; exact Hlast.
Qed.

Lemma settled_forever categories n :
  settled categories n ->
  forall k specifier,
    dependedOnWithin (S (n + k)) specifier categories
    = dependedOnWithin (S n) specifier categories.
Proof.
  intros Hset k.
  assert (Hall : settled categories (n + k) /\
                 forall specifier,
                   dependedOnWithin (S (n + k)) specifier categories
                   = dependedOnWithin (S n) specifier categories).
  { induction k as [|k [IHset IHeq]].
    - rewrite Nat.add_0_r. auto.
    - replace (n + S k) with (S (n + k)) by lia.
      pose proof (settled_round categories (n + k) IHset) as Hround.
      split.
      + intros b Hb. cbv beta. rewrite Hround. reflexivity.
      + intros specifier. rewrite Hround. apply IHeq. }
  apply Hall.
Qed.

Lemma filter_length_mono {A} (f g : A -> bool) (l : list A) :
  (forall x, x ∈ l -> f x = true -> g x = true) ->
  List.length (List.filter f l) <= List.length (List.filter g l)
  /\ ((exists x, x ∈ l /\ f x = false /\ g x = true) ->
      List.length (List.filter f l) < List.length (List.filter g l)).
Proof.
  induction l as [|a l IH]; intros Hfg; simpl.
  - split; [lia|]. intros (x & Hx%elem_of_nil & _). tauto.
  - destruct IH as [IHle IHlt].
    { intros x Hx. apply Hfg, elem_of_cons. auto. }
    pose proof (Hfg a (list_elem_of_here _ _)) as Ha.
    destruct (f a) eqn:Hf, (g a) eqn:Hg; simpl;
      try (specialize (Ha eq_refl); discriminate).
    + split; [lia|]. intros (x & [->|Hx]%elem_of_cons & Hfx & Hgx); [congruence|].
      assert (List.length (List.filter f l) < List.length (List.filter g l)) by eauto.
      lia.
    + split; lia.
    + split; [lia|]. intros (x & [->|Hx]%elem_of_cons & Hfx & Hgx); [congruence|].
      eauto.
Qed.

Lemma all_or_one {A} (f : A -> bool) (l : list A) :
  (forall x, x ∈ l -> f x = true) \/ (exists x, x ∈ l /\ f x = false).
Proof.
  induction l as [|a l [IH|(x & Hx & Hfx)]].
  - left. intros x Hx. apply elem_of_nil in Hx as [].
  - destruct (f a) eqn:Hfa.
    + left. intros x [->|Hx]%elem_of_cons; auto.
    + right. exists a. split; [apply list_elem_of_here | exact Hfa].
  - right. exists x. split; [apply elem_of_cons; auto | exact Hfx].
Qed.

Lemma settled_within categories :
  exists m, m <= List.length (allBlocks categories) /\ settled categories m.
Proof.
  set (count n := List.length (List.filter (marked categories n) (allBlocks categories))).
  assert (Hgrow : forall n b,
             marked categories n b = true -> marked categories (S n) b = true).
  { intros n b [Hl|Hd]%orb_true_iff; apply orb_true_iff; [auto|].
    right. apply dependedOnWithin_mono, Hd. }
  assert (Hprogress : forall n,
             (exists m, m < n /\ settled categories m) \/ n <= count n).
  { induction n as [|n [(m & Hm & Hset)|Hcount]].
    - right. lia.
    - left. exists m. split; [lia | exact Hset].
    - destruct (all_or_one
                  (fun b => Bool.eqb (marked categories (S n) b) (marked categories n b))
                  (allBlocks categories)) as [Hall|(b & Hb & Hdiff)].
      + left. exists n. split; [lia|]. intros b Hb%elem_of_allBlocks.
        apply Bool.eqb_prop, Hall, Hb.
      + right.
        assert (Hlt : count n < count (S n)).
        { apply (filter_length_mono (marked categories n) (marked categories (S n))).
          - intros x _. apply Hgrow.
          - exists b. split; [exact Hb|].
            destruct (marked categories n b) eqn:Hn.
            + rewrite (Hgrow n b Hn) in Hdiff. discriminate.
            + destruct (marked categories (S n) b); [auto | discriminate]. }
        lia. }
  destruct (Hprogress (S (List.length (allBlocks categories))))
    as [(m & Hm & Hset)|Hcount].
  - exists m. split; [lia | exact Hset].
  - pose proof (filter_length_le
                  (marked categories (S (List.length (allBlocks categories))))
                  (allBlocks categories)).
    unfold count in Hcount. lia.
Qed.

(** The model of [isDependedOn] finds exactly the specifiers that a listed
    block depends on, directly or through other blocks. *)
Lemma isDependedOn_true specifier categories :
  isDependedOn specifier categories = true <-> DependedOn categories specifier.
Proof.
  unfold isDependedOn. split; [apply dependedOnWithin_DependedOn|].
  intros [n Hn]%DependedOn_dependedOnWithin.
  destruct (settled_within categories) as (m & Hm & Hset).
  destruct (Nat.le_gt_cases n (S m)) as [Hle|Hgt].
  - apply (dependedOnWithin_le categories n); [lia | exact Hn].
  - apply (dependedOnWithin_le categories (S m)); [lia|].
    rewrite <- (settled_forever categories m Hset (n - S m)).
    replace (S (m + (n - S m))) with n by lia. exact Hn.
Qed.

Lemma survives_true categories b :
  survives categories b = true <->
  list_ b = true \/ DependedOn categories (blockSpecifier b).
Proof.
  unfold survives. rewrite orb_true_iff, isDependedOn_true. reflexivity.
Qed.


(** *** The loops are filters *)

Lemma pruneBlocks_filter categories bs :
  pruneBlocks categories bs = List.filter (survives categories) bs.
Proof.
  unfold survives. induction bs as [|b rest IH]; simpl; [reflexivity|].
  rewrite IH. destruct (list_ b), (isDependedOn _ _); reflexivity.
Qed.

Lemma pruneCategories_filter categories cs :
  pruneCategories categories cs =
    List.filter
      (fun c => match blocks c with [] => false | _ :: _ => true end)
      ((fun c => mkCategory (cat_name c) (List.filter (survives categories) (blocks c)))
         <$> cs).
Proof.
  induction cs as [|c rest IH]; csimpl; [reflexivity|].
  rewrite IH, pruneBlocks_filter.
  destruct (List.filter _ (blocks c)); reflexivity.
Qed.


Lemma elem_of_pruneCategories categories cs c' :
  c' ∈ pruneCategories categories cs <->
  exists c, c ∈ cs /\ c' = mkCategory (cat_name c) (pruneBlocks categories (blocks c))
            /\ blocks c' <> [].
Proof.
  induction cs as [|c rest IH]; simpl.
  - rewrite elem_of_nil. split; [tauto|]. intros (c & Hc%elem_of_nil & _). tauto.
  - destruct (pruneBlocks categories (blocks c)) as [|b bs] eqn:Hbs; simpl.
    + rewrite IH. split.
      * intros (c0 & ? & ? & ?). exists c0. rewrite elem_of_cons. auto.
      * intros (c0 & [->|?]%elem_of_cons & Heq & Hne); [|eauto].
        rewrite Hbs in Heq. subst c'. contradiction.
    + rewrite elem_of_cons, IH. split.
      * intros [->|(c0 & ? & ? & ?)].
        -- exists c. rewrite elem_of_cons, Hbs. simpl. repeat split; auto.
        -- exists c0. rewrite elem_of_cons. auto.
      * intros (c0 & [->|?]%elem_of_cons & Heq & Hne); [|eauto].
        left. rewrite Heq, Hbs. reflexivity.
Qed.

Lemma elem_of_pruneBlocks categories bs b :
  b ∈ pruneBlocks categories bs <-> b ∈ bs /\ survives categories b = true.
Proof.
  rewrite pruneBlocks_filter, !list_elem_of_In, filter_In. reflexivity.
Qed.

(** The blocks of the output are the surviving blocks of the input. *)
Lemma inGraph_prune categories b :
  inGraph (prune categories) b <->
  inGraph categories b /\ survives categories b = true.
Proof.
  unfold inGraph, prune, pruneUnused. simpl. split.
  - intros (c' & (c & Hc & -> & _)%elem_of_pruneCategories & Hb). simpl in Hb.
    apply elem_of_pruneBlocks in Hb as [Hb Hs]. eauto.
  - intros [(c & Hc & Hb) Hs].
    exists (mkCategory (cat_name c) (pruneBlocks categories (blocks c))).
    assert (Hin : b ∈ pruneBlocks categories (blocks c))
      by (apply elem_of_pruneBlocks; auto).
    split; [|exact Hin].
    apply elem_of_pruneCategories. exists c. repeat split; [assumption|].
    simpl. intros Hnil. rewrite Hnil in Hin. apply elem_of_nil in Hin as [].
Qed.


Lemma filter_fixed {A} (f : A -> bool) (l : list A) :
  List.filter f l = l <-> forall x, x ∈ l -> f x = true.
Proof.
  split.
  - intros Heq x Hx%list_elem_of_In.
    assert (Hall : forallb f l = true)
      by (apply filter_length_forallb; rewrite Heq; reflexivity).
    rewrite forallb_forall in Hall. auto.
  - intros Hall. apply forallb_filter_id, forallb_forall.
    intros x Hx%list_elem_of_In. auto.
Qed.

(** *** The survivors *)


(** *** Pruning keeps the chains *)

(** A chain from a listed block consists of surviving blocks, so it is still
    there after the pruning; and the pruning adds no block. *)
Lemma DependedOn_prune categories specifier :
  DependedOn (prune categories) specifier <-> DependedOn categories specifier.
Proof.
  split.
  - induction 1 as [b s Hb Hne Hin Hl | b s Hb Hne Hin _ IH];
      apply inGraph_prune in Hb as [Hb _].
    + exact (by_listed categories b s Hb Hne Hin Hl).
    + exact (by_dependency categories b s Hb Hne Hin IH).
  - induction 1 as [b s Hb Hne Hin Hl | b s Hb Hne Hin Hd IH].
    + refine (by_listed (prune categories) b s _ Hne Hin Hl).
      apply inGraph_prune. split; [exact Hb|]. apply survives_true. auto.
    + refine (by_dependency (prune categories) b s _ Hne Hin IH).
      apply inGraph_prune. split; [exact Hb|]. apply survives_true. auto.
Qed.

Lemma survives_prune categories b :
  survives (prune categories) b = survives categories b.
Proof.
  apply eq_true_iff_eq. rewrite !survives_true, DependedOn_prune. reflexivity.
Qed.

(** *** Pruning twice *)

Lemma pruneCategories_fixed categories cs :
  pruneCategories categories cs = cs <->
  forall c, c ∈ cs ->
    blocks c <> [] /\ forall b, b ∈ blocks c -> survives categories b = true.
Proof.
  induction cs as [|c rest IH]; simpl.
  - split; [|reflexivity]. intros _ c Hc. apply elem_of_nil in Hc as [].
  - rewrite pruneBlocks_filter.
    destruct (List.filter (survives categories) (blocks c)) as [|b0 bs] eqn:Hf; simpl.
    + split.
      * intros Heq. exfalso.
        assert (Hlen : List.length (pruneCategories categories rest) <= List.length rest).
        { rewrite pruneCategories_filter.
          etransitivity; [apply filter_length_le|]. rewrite length_fmap. lia. }
        rewrite Heq in Hlen. simpl in Hlen. lia.
      * intros Hall. exfalso.
        destruct (Hall c) as [Hne Hs]; [apply list_elem_of_here|].
        apply filter_fixed in Hs. congruence.
    + split.
      * intros Heq. injection Heq as Hc Hrest.
        intros c0 [->|Hc0]%elem_of_cons; [|apply IH; assumption].
        assert (Hb : List.filter (survives categories) (blocks c) = blocks c)
          by (rewrite Hf, <- Hc; reflexivity).
        split; [rewrite <- Hb, Hf; discriminate | apply filter_fixed, Hb].
      * intros Hall. f_equal.
        -- destruct (Hall c) as [_ Hs]; [apply list_elem_of_here|].
           apply filter_fixed in Hs. rewrite <- Hf, Hs. destruct c; reflexivity.
        -- apply IH. intros c0 Hc0. apply Hall, elem_of_cons. auto.
Qed.

(** C4: pruning is idempotent, the second pass removes nothing. *)
Theorem prune_idempotent categories :
  prune (prune categories) = prune categories.
Proof.
  change (prune (prune categories))
    with (pruneCategories (prune categories) (prune categories)).
  apply pruneCategories_fixed. intros c Hc. split.
  - apply elem_of_pruneCategories in Hc as (c0 & _ & _ & Hne). exact Hne.
  - intros b Hb. rewrite survives_prune.
    assert (Hin : inGraph (prune categories) b) by (exists c; auto).
    apply inGraph_prune in Hin as [_ Hs]. exact Hs.
Qed.

End PruneFacts.

(** ** Installed-block scanner *)

Section ScannerFacts.
Import Scanner.
Variables Paths ResolvedPaths : Type.
Variable resolvePaths : Paths -> string -> Result ResolvedPaths string.
Variable getPathForBlock : Block -> ResolvedPaths -> string -> string.
Variable pathe : PathApi.

Local Abbreviation blockPath := (blockPath ResolvedPaths getPathForBlock pathe).
Local Abbreviation scan := (scan ResolvedPaths getPathForBlock pathe).
Local Abbreviation getInstalled :=
  (getInstalled Paths ResolvedPaths resolvePaths getPathForBlock pathe).

Lemma elem_of_scan existsSync rp cwd (known : list (string * Block)) ib :
  ib ∈ scan existsSync rp cwd known <->
  exists key b, (key, b) ∈ known
                /\ existsSync (blockPath rp cwd b) = true
                /\ ib = mkInstalled (blockSpecifier b) (blockPath rp cwd b) b.
Proof.
  induction known as [|[k b0] rest IH]; simpl.
  - rewrite elem_of_nil. split; [tauto|]. intros (? & ? & []%elem_of_nil & _).
  - destruct (existsSync (blockPath rp cwd b0)) eqn:Hex.
    + rewrite elem_of_cons, IH. split.
      * intros [->|(key & b & ? & ? & ?)].
        -- exists k, b0. rewrite elem_of_cons. auto.
        -- exists key, b. rewrite elem_of_cons. auto.
      * intros (key & b & [[= -> ->]|Hin]%elem_of_cons & He & ->); [auto|].
        right. eauto.
    + rewrite IH. split.
      * intros (key & b & ? & ? & ?). exists key, b. rewrite elem_of_cons. auto.
      * intros (key & b & [[= -> ->]|Hin]%elem_of_cons & He & ->); [congruence|].
        eauto.
Qed.

Lemma scan_ext existsSync existsSync' rp cwd (known : list (string * Block)) :
  (forall key b, (key, b) ∈ known ->
     existsSync' (blockPath rp cwd b) = existsSync (blockPath rp cwd b)) ->
  scan existsSync' rp cwd known = scan existsSync rp cwd known.
Proof.
  induction known as [|[k b0] rest IH]; intros Hext; simpl; [reflexivity|].
  rewrite (Hext k b0) by apply list_elem_of_here.
  rewrite IH; [reflexivity|]. intros key b Hin. apply (Hext key), elem_of_cons. auto.
Qed.

(** C9: [getInstalled] reports a known block exactly if its target path
    exists: the base directory joined with the block's name for a
    subdirectory block, with [files[0]] otherwise; nothing but the
    existence of these paths enters the result. *)
Theorem getInstalled_reports_existing_paths
    existsSync (known : list (string * Block)) config cwd installed :
  getInstalled existsSync known config cwd = Ok installed ->
  exists resolvedPaths,
    resolvePaths (paths Paths config) cwd = Ok resolvedPaths
    /\ (forall key b, (key, b) ∈ known ->
          ((exists ib, ib ∈ installed /\ block ib = b)
           <-> existsSync (blockPath resolvedPaths cwd b) = true))
    /\ (forall ib, ib ∈ installed ->
          (exists key, (key, block ib) ∈ known)
          /\ specifier ib = blockSpecifier (block ib)
          /\ Scanner.path ib = blockPath resolvedPaths cwd (block ib))
    /\ (forall b,
          blockPath resolvedPaths cwd b =
            let baseDir := getPathForBlock b resolvedPaths cwd in
            if subdirectory b then join pathe [baseDir; name b]
            else match files b with
                 | primary :: _ => join pathe [baseDir; primary]
                 | [] => join pathe [baseDir]
                 end)
    /\ (forall existsSync',
          (forall key b, (key, b) ∈ known ->
             existsSync' (blockPath resolvedPaths cwd b)
             = existsSync (blockPath resolvedPaths cwd b)) ->
          getInstalled existsSync' known config cwd = Ok installed).
Proof.
  unfold Scanner.getInstalled.
  destruct (resolvePaths (paths Paths config) cwd) as [rp|e] eqn:Hrp; [|discriminate].
  intros [= <-]. exists rp. split; [reflexivity|].
  split; [|split; [|split]].
  - intros key b Hin. split.
    + intros (ib & (key' & b' & _ & Hex & ->)%elem_of_scan & <-). exact Hex.
    + intros Hex. exists (mkInstalled (blockSpecifier b) (blockPath rp cwd b) b).
      split; [|reflexivity]. apply elem_of_scan. eauto.
  - intros ib (key & b & Hin & _ & ->)%elem_of_scan. simpl. eauto.
  - intros b. unfold Scanner.blockPath. simpl.
    destruct (subdirectory b); [reflexivity|]. destruct (files b); reflexivity.
  - intros existsSync' Hext. rewrite (scan_ext existsSync existsSync'); auto.
Qed.

End ScannerFacts.

(** ** The concrete registries, projects and source trees *)

Section Runs.
Import Scenario.

Local Abbreviation resolveIn m repos :=
  (Resolver.resolveTree selectProvider url_join m repos).

(** *** Resolver *)

(** With [ui/a] and [ui/b] needing each other, asking for [ui/a] gives
    both, once each. *)
Lemma resolveTree_two_cycle_run fuel :
  resolveIn twoCycle [acme] (3 + fuel) ["ui/a"] []
  = Some (Ok [Resolver.mkInstalling "a" false (remote "ui" "a" ["ui/b"]);
              Resolver.mkInstalling "b" false (remote "ui" "b" ["ui/a"])]).
Proof.
  refine (resolveTree_two_cycle selectProvider url_join twoCycle [acme] "ui/a"
            (remote "ui" "a" ["ui/b"]) (remote "ui" "b" ["ui/a"]) fuel _ _ _ _ _);
    try (vm_compute; reflexivity).
  vm_compute. discriminate.
Qed.

(** C1, at a cycle of three blocks: with [ui/a] needing [ui/b], [ui/b]
    needing [ui/c] and [ui/c] needing [ui/a], the call for [ui/a] does not
    return, whatever depth of recursion it is given. *)
Theorem resolveTree_three_cycle_never_returns :
  forall fuel, resolveIn threeCycle [acme] fuel ["ui/a"] [] = None.
Proof.
  intros fuel.
  refine (proj1 (resolveTree_three_cycle_diverges selectProvider url_join
                   threeCycle [acme]
                   (remote "ui" "a" ["ui/b"]) (remote "ui" "b" ["ui/c"])
                   (remote "ui" "c" ["ui/a"]) _ _ _ _ _ _ _ _ _ fuel []) _);
    try (vm_compute; reflexivity); vm_compute; discriminate.
Qed.

(** C2, at a chain: asking for the button, which needs the icon, which
    needs the theme, returns all three, and none of them is marked as a
    sub-dependency. *)
Theorem resolveTree_chain_not_tagged :
  exists out,
    resolveIn chain [acme] 4 ["github/acme/lib/ui/button"] [] = Some (Ok out)
    /\ (fun ib => (Resolver.ib_name ib, Resolver.subDependency ib)) <$> out
       = [("button", false); ("icon", false); ("theme", false)].
Proof. eexists. split; vm_compute; reflexivity. Qed.

(** C6, as stated, fails when an earlier specifier fails first: no repo is
    configured and [button] is bare, yet the error is the one of the
    qualified specifier before it. *)
Lemma resolveTree_bare_after_missing :
  selectProvider "button" = None
  /\ resolveIn chain [] 3 ["github/acme/lib/ui/missing"; "button"] []
     = Some (Err (Resolver.BlockNotFound "github/acme/lib/ui/missing"))
  /\ resolveIn chain [] 3 ["github/acme/lib/ui/missing"; "button"] []
     <> Some (Err (Resolver.NoRepositoryConfigured "button")).
Proof.
  split; [reflexivity|]. split; [vm_compute; reflexivity | vm_compute; discriminate].
Qed.

Lemma resolveTree_bare_specifier_unresolved_witness :
  resolveIn chain [] 2 (["github/acme/lib/ui/theme"] ++ "button" :: ["ui/icon"]) []
  = Some (Err (Resolver.NoRepositoryConfigured "button"))
  /\ resolveIn chain [acme] 2 (["ui/theme"] ++ "button" :: ["ui/icon"]) []
     = Some (Err (Resolver.BlockNotFound "button")).
Proof.
  split.
  - refine (proj1 (resolveTree_bare_specifier_unresolved selectProvider url_join
                     chain [] 2 ["github/acme/lib/ui/theme"] "button" ["ui/icon"] []
                     [Resolver.mkInstalling "theme" false (remote "ui" "theme" [])]
                     _ _ _)).
    + reflexivity.
    + intros providerState Hin. inversion Hin.
    + vm_compute. reflexivity.
  - refine (proj1 (resolveTree_bare_specifier_unresolved selectProvider url_join
                     chain [acme] 2 ["ui/theme"] "button" ["ui/icon"] []
                     [Resolver.mkInstalling "theme" false (remote "ui" "theme" [])]
                     _ _ _)).
    + reflexivity.
    + intros providerState Hin. inversion Hin; subst; [vm_compute; reflexivity|].
      match goal with H : _ ∈ [] |- _ => inversion H end.
    + vm_compute. reflexivity.
Defined.

(** *** Builder *)

(** C3, at a file that imports itself: the block built from
    [src/utils/math.ts] keeps its own specifier [utils/math] among its
    local dependencies. *)
Theorem single_file_block_keeps_itself :
  build (defaults false) selfImportTree
  = Ok ([mkCategory "utils" [mathBlock; stringBlock]], [])
  /\ subdirectory mathBlock = false
  /\ blockSpecifier mathBlock = "utils/math"
  /\ blockSpecifier mathBlock ∈ localDependencies mathBlock.
Proof.
  split; [vm_compute; reflexivity|]. split; [reflexivity|]. split; [reflexivity|].
  apply list_elem_of_here.
Qed.





Lemma block_listed_only_in_listed_category_witness :
  let b := arrayBlock false ["index.ts"; "index.test.ts"; "internal/deep.ts"] in
  let c := mkCategory "utils" [b] in
  category b = cat_name c
  /\ (list_ b = true ->
      Builder.shouldListCategory (category b) unlistedUtils = true)
  /\ (Builder.shouldListCategory (cat_name c) unlistedUtils = false ->
      list_ b = false).
Proof.
  refine (block_listed_only_in_listed_category simplePath [typescript]
            (options unlistedUtils) "src" arrayTree [] _ [] _ _ _ _ _).
  - vm_compute. reflexivity.
  - apply list_elem_of_here.
  - apply list_elem_of_here.
Defined.

(** *** Pruning *)


(** With a listed [ui/a] both blocks stay. *)
Lemma prune_keeps_dependency_of_listed_block :
  Prune.prune listedChain = listedChain.
Proof. vm_compute. reflexivity. Qed.

(** *** Scanner *)

Lemma getInstalled_reports_existing_paths_witness :
  exists resolvedPaths,
    Scenario.resolvePaths (Scanner.paths _ project) "/proj" = Ok resolvedPaths
    /\ Scanner.getInstalled _ _ Scenario.resolvePaths Scenario.getPathForBlock
         simplePath onDisk knownBlocks project "/proj"
       = Ok [Scanner.mkInstalled "utils/math" "/proj/src/blocks/utils/math.ts" mathBlock].
Proof.
  destruct (getInstalled_reports_existing_paths _ _ Scenario.resolvePaths
              Scenario.getPathForBlock simplePath onDisk knownBlocks project "/proj"
              [Scanner.mkInstalled "utils/math" "/proj/src/blocks/utils/math.ts"
                                   mathBlock])
    as (resolvedPaths & Hresolved & _ & _ & _ & Hext).
  - vm_compute. reflexivity.
  - exists resolvedPaths. split; [exact Hresolved|].
    apply Hext. reflexivity.
Defined.

End Runs.


(** ** More on the dependency resolver *)

Section ResolverCoverage.
Import Resolver.
Variable selectProvider : string -> option RegistryProvider.
Variable url_join : string -> string -> string.
Variable blocksMap : gmap string RemoteBlock.
Variable repoPaths : list RegistryProviderState.

Local Abbreviation findBlock := (findBlock selectProvider url_join blocksMap repoPaths).
Local Abbreviation resolveLoop := (resolveLoop selectProvider url_join blocksMap repoPaths).
Local Abbreviation resolveTree := (resolveTree selectProvider url_join blocksMap repoPaths).
Local Abbreviation direct b := (mkInstalling (name (block b)) false b).

Implicit Types (blocks installed : BlockMap) (out subDeps : list InstallingBlock).

(** *** Where blocks and errors come from *)

Lemma findInRepos_Some s repos b :
  findInRepos url_join blocksMap s repos = Some b ->
  exists providerState,
    providerState ∈ repos /\ lookupInRepo url_join blocksMap s providerState = Some b.
Proof.
  induction repos as [|ps rest IH]; simpl; [discriminate|].
  destruct (lookupInRepo url_join blocksMap s ps) as [b'|] eqn:Hps.
  - intros [= <-]. exists ps. split; [apply list_elem_of_here | exact Hps].
  - intros (ps' & Hin & Hps')%IH. exists ps'. split; [apply elem_of_cons; auto | exact Hps'].
Qed.

Lemma findBlock_in_map s b :
  findBlock s = Ok b -> exists key, blocksMap !! key = Some b.
Proof.
  unfold Resolver.findBlock.
  destruct (selectProvider s) as [p|].
  - destruct (parse p s true) as [repoIdent specifier].
    destruct (blocksMap !! url_join repoIdent specifier) as [b'|] eqn:Hget; [|discriminate].
    intros [= <-]. eauto.
  - destruct repoPaths as [|ps rest]; [discriminate|].
    destruct (findInRepos url_join blocksMap s (ps :: rest)) as [b'|] eqn:Hfind;
      [|discriminate].
    intros [= <-]. apply findInRepos_Some in Hfind as (ps' & _ & Hlook).
    unfold lookupInRepo in Hlook.
    destruct (parse (provider ps') _ true) as [repoIdent specifier]. eauto.
Qed.

Lemma findBlock_Err s e :
  findBlock s = Err e ->
  (e = NoRepositoryConfigured s /\ selectProvider s = None /\ repoPaths = [])
  \/ (e = BlockNotFound s /\ (repoPaths <> [] \/ selectProvider s <> None)).
Proof.
  unfold Resolver.findBlock.
  destruct (selectProvider s) as [p|].
  - destruct (parse p s true) as [repoIdent specifier].
    destruct (blocksMap !! url_join repoIdent specifier); [discriminate|].
    intros [= <-]. right. split; [reflexivity|]. right. discriminate.
  - destruct repoPaths as [|ps rest]; [intros [= <-]; auto|].
    destruct (findInRepos url_join blocksMap s (ps :: rest)); [discriminate|].
    intros [= <-]. right. split; [reflexivity|]. left. discriminate.
Qed.

Lemma resolveLoop_Forall_found (R : InstallingBlock -> Prop) rec installed :
  (forall s b, findBlock s = Ok b -> R (direct b)) ->
  (forall specs i out, rec specs i = Some (Ok out) -> Forall R out) ->
  forall specs blocks out,
    Forall R (map_values blocks) ->
    resolveLoop rec installed specs blocks = Some (Ok out) ->
    Forall R out.
Proof.
  intros Hnew Hrec specs.
  induction specs as [|s rest IH]; intros blocks out Hb; simpl.
  - intros [= <-]. assumption.
  - destruct (findBlock s) as [b|e] eqn:Hfind; [|discriminate].
    pose proof (Forall_values_set R (remoteSpecifier b) _ blocks (Hnew s b Hfind) Hb) as Hb1.
    destruct (localDependencies (block b)) as [|d ds]; [eauto|].
    destruct (rec _ _) as [[subDeps|e]|] eqn:Hsub; [|discriminate..].
    apply IH, Forall_values_merge; eauto.
Qed.

(** X7: every entry a call returns holds a block of the manifest map, under
    that block's own name. *)
Theorem resolveTree_entries_from_map fuel : forall specs installed out,
  resolveTree fuel specs installed = Some (Ok out) ->
  Forall (fun ib => (exists key, blocksMap !! key = Some (ib_block ib))
                    /\ ib_name ib = name (block (ib_block ib))) out.
Proof.
  induction fuel as [|fuel IH]; intros specs installed out; simpl; [discriminate|].
  apply resolveLoop_Forall_found; [|exact IH|constructor].
  intros s b Hfind. simpl. split; [exact (findBlock_in_map s b Hfind) | reflexivity].
Qed.

Lemma resolveLoop_Err rec installed (P : ResolveError -> Prop) :
  (forall s e, findBlock s = Err e -> P e) ->
  (forall specs i e, rec specs i = Some (Err e) -> P e) ->
  forall specs blocks e,
    resolveLoop rec installed specs blocks = Some (Err e) -> P e.
Proof.
  intros Hfind Hrec specs.
  induction specs as [|s rest IH]; intros blocks e; simpl; [discriminate|].
  destruct (findBlock s) as [b|e'] eqn:Hs; [|intros [= <-]; eauto].
  destruct (localDependencies (block b)) as [|d ds]; [apply IH|].
  destruct (rec _ _) as [[subDeps|e']|] eqn:Hsub; [apply IH| |discriminate].
  intros [= <-]. eauto.
Qed.

(** X4: an error a call returns is the error of looking up one specifier:
    [NoRepositoryConfigured] only for a bare specifier when no repo is
    configured, [BlockNotFound] otherwise. *)
Theorem resolveTree_error_origin fuel : forall specs installed e,
  resolveTree fuel specs installed = Some (Err e) ->
  exists s,
    findBlock s = Err e
    /\ ((e = NoRepositoryConfigured s /\ selectProvider s = None /\ repoPaths = [])
        \/ (e = BlockNotFound s /\ (repoPaths <> [] \/ selectProvider s <> None))).
Proof.
  induction fuel as [|fuel IH]; intros specs installed e; simpl; [discriminate|].
  refine (resolveLoop_Err (resolveTree fuel) installed
            (fun e => exists s, findBlock s = Err e /\ _) _ IH specs [] e).
  intros s e' Hs. exists s. split; [exact Hs | exact (findBlock_Err s e' Hs)].
Qed.

(** X5: a qualified specifier that the manifest map does not have makes the
    call fail with [BlockNotFound] once the loop reaches it, whatever repos
    are configured. *)
Theorem resolveTree_qualified_missing fuel pre s post installed out p :
  selectProvider s = Some p ->
  blocksMap !! url_join (fst (parse p s true)) (snd (parse p s true)) = None ->
  resolveTree fuel pre installed = Some (Ok out) ->
  resolveTree fuel (pre ++ s :: post) installed = Some (Err (BlockNotFound s)).
Proof.
  intros Hsel Hget Hpre.
  assert (Hs : findBlock s = Err (BlockNotFound s)).
  { unfold Resolver.findBlock. rewrite Hsel.
    destruct (parse p s true) as [repoIdent specifier]. simpl in Hget.
    rewrite Hget. reflexivity. }
  destruct fuel as [|fuel]; [discriminate|]. simpl in *.
  eapply resolveLoop_stops; eassumption.
Qed.

(** X6: a bare specifier resolves to the block of the first configured repo
    that has it; repos after that one are not consulted. *)
Theorem findBlock_first_repo s pre providerState post b :
  selectProvider s = None ->
  repoPaths = pre ++ providerState :: post ->
  (forall earlier, earlier ∈ pre -> lookupInRepo url_join blocksMap s earlier = None) ->
  lookupInRepo url_join blocksMap s providerState = Some b ->
  findBlock s = Ok b.
Proof.
  intros Hsel Hrepos Hpre Hhit. unfold Resolver.findBlock. rewrite Hsel, Hrepos.
  assert (Hfind : findInRepos url_join blocksMap s (pre ++ providerState :: post) = Some b).
  { clear Hrepos. induction pre as [|ps pre IH]; simpl.
    - rewrite Hhit. reflexivity.
    - rewrite (Hpre ps) by apply list_elem_of_here.
      apply IH. intros earlier Hin. apply Hpre, elem_of_cons. auto. }
  rewrite Hfind. destruct pre; reflexivity.
Qed.

(** *** Dependency graphs without cycles *)

Section Ranked.
(** [rank] goes down along every local dependency that resolves. *)
Variable rank : RemoteBlock -> nat.
Hypothesis rank_decreases : forall s b dep b',
  findBlock s = Ok b -> dep ∈ localDependencies (block b) ->
  findBlock dep = Ok b' -> rank b' < rank b.

Lemma resolveLoop_returns rec installed n :
  (forall specs i,
      (forall s b, s ∈ specs -> findBlock s = Ok b -> rank b < n) ->
      exists r, rec specs i = Some r) ->
  forall specs blocks,
    (forall s b, s ∈ specs -> findBlock s = Ok b -> rank b <= n) ->
    exists r, resolveLoop rec installed specs blocks = Some r.
Proof.
  intros Hrec specs.
  induction specs as [|s rest IH]; intros blocks Hspecs; simpl; [eauto|].
  assert (Hrest : forall s' b, s' ∈ rest -> findBlock s' = Ok b -> rank b <= n).
  { intros s' b Hin. apply Hspecs, elem_of_cons. auto. }
  destruct (findBlock s) as [b|e] eqn:Hfind; [|eauto].
  destruct (localDependencies (block b)) as [|d ds] eqn:Hdeps; [apply IH, Hrest|].
  destruct (Hrec (pendingDeps b (map_set (remoteSpecifier b) (direct b) blocks) installed)
                 (map_set (remoteSpecifier b) (direct b) blocks)) as [r Hr].
  { intros dep b' Hin Hb'.
    apply (elem_of_pendingDeps selectProvider url_join) in Hin as [Hdep _].
    assert (rank b <= n) by (apply (Hspecs s); [apply list_elem_of_here | exact Hfind]).
    pose proof (rank_decreases s b dep b' Hfind Hdep Hb'). lia. }
  rewrite Hr. destruct r as [subDeps|e]; [apply IH, Hrest | eauto].
Qed.

(** X2: when the local dependencies that resolve form no cycle (they go
    down a rank), a call whose requested blocks have rank at most [n]
    returns, with a list of blocks or an error, within depth [n + 2]. *)
Theorem resolveTree_acyclic_returns n : forall specs installed,
  (forall s b, s ∈ specs -> findBlock s = Ok b -> rank b <= n) ->
  exists r, resolveTree (n + 2) specs installed = Some r.
Proof.
  assert (Hlt : forall n specs installed,
             (forall s b, s ∈ specs -> findBlock s = Ok b -> rank b < n) ->
             exists r, resolveTree (S n) specs installed = Some r).
  { clear n. induction n as [|n IH]; intros specs installed Hspecs.
    - destruct specs as [|s rest]; simpl; [eauto|].
      destruct (findBlock s) as [b|e] eqn:Hfind; [|eauto].
      pose proof (Hspecs s b (list_elem_of_here _ _) Hfind). lia.
    - change (resolveTree (S (S n)) specs installed)
        with (resolveLoop (resolveTree (S n)) installed specs []).
      apply (resolveLoop_returns (resolveTree (S n)) installed n).
      + intros specs' i. apply IH.
      + intros s b Hin Hb. pose proof (Hspecs s b Hin Hb). lia. }
  intros specs installed Hspecs. replace (n + 2) with (S (S n)) by lia.
  apply Hlt. intros s b Hin Hb. pose proof (Hspecs s b Hin Hb). lia.
Qed.
End Ranked.

(** *** What a successful call returns *)

(** X3: a successful call returns an entry for the block of every requested
    specifier, and every local dependency of every returned block is in
    [installed] or has an entry too (under its own name, or under the
    specifier of the block it resolves to). *)
Theorem resolveTree_returns_dependencies fuel specs installed out :
  resolveTree fuel specs installed = Some (Ok out) ->
  (forall s, s ∈ specs ->
     exists b, findBlock s = Ok b /\ remoteSpecifier b ∈ specifiers out)
  /\ (forall ib dep,
        ib ∈ out -> dep ∈ localDependencies (block (ib_block ib)) ->
        map_has dep installed = true
        \/ dep ∈ specifiers out
        \/ exists b, findBlock dep = Ok b /\ remoteSpecifier b ∈ specifiers out).
Proof. exact (resolveTree_closed selectProvider url_join blocksMap repoPaths fuel _ _ _). Qed.

Lemma map_keys_set_prefix k (v : InstallingBlock) blocks :
  map_keys blocks `prefix_of` map_keys (map_set k v blocks).
Proof.
  rewrite map_keys_set. destruct (map_has k blocks); [reflexivity|].
  apply prefix_app_r. reflexivity.
Qed.

Lemma map_keys_merge_prefix subDeps : forall blocks,
  map_keys blocks `prefix_of` map_keys (mergeDeps subDeps blocks).
Proof.
  unfold mergeDeps. induction subDeps as [|d ds IH]; intros blocks; simpl; [reflexivity|].
  etransitivity; [apply map_keys_set_prefix | apply IH].
Qed.

(** Entries stay in the order in which their specifiers were first met. *)
Lemma resolveLoop_prefix rec installed specs : forall blocks out,
  keyed blocks ->
  resolveLoop rec installed specs blocks = Some (Ok out) ->
  map_keys blocks `prefix_of` specifiers out.
Proof.
  induction specs as [|s rest IH]; intros blocks out Hkeyed; simpl.
  - intros [= <-]. rewrite keyed_values_keys by assumption.
    reflexivity.
  - destruct (findBlock s) as [b|e]; [|discriminate].
    assert (Hk1 : keyed (map_set (remoteSpecifier b) (direct b) blocks))
      by exact (keyed_set blocks (direct b) Hkeyed).
    destruct (localDependencies (block b)) as [|d ds].
    + intros Hrun. etransitivity; [apply map_keys_set_prefix | exact (IH _ _ Hk1 Hrun)].
    + destruct (rec _ _) as [[subDeps|e]|]; [|discriminate..].
      intros Hrun. etransitivity; [apply map_keys_set_prefix|].
      etransitivity; [apply map_keys_merge_prefix|].
      apply (IH _ _ (keyed_merge subDeps _ Hk1) Hrun).
Qed.

(** X8: the entries of a successful call begin with the block of the first
    requested specifier. *)
Theorem resolveTree_first_requested_first fuel s rest installed out b :
  findBlock s = Ok b ->
  resolveTree fuel (s :: rest) installed = Some (Ok out) ->
  exists tail, specifiers out = remoteSpecifier b :: tail.
Proof.
  intros Hfind. destruct fuel as [|fuel]; simpl; [discriminate|]. rewrite Hfind.
  assert (Hk1 : keyed [(remoteSpecifier b, direct b)]) by (repeat constructor).
  assert (Hprefix : forall blocks2,
             keyed blocks2 ->
             [remoteSpecifier b] `prefix_of` map_keys blocks2 ->
             resolveLoop (resolveTree fuel) installed rest blocks2 = Some (Ok out) ->
             exists tail, specifiers out = remoteSpecifier b :: tail).
  { intros blocks2 Hk2 Hpre Hrun.
    destruct (resolveLoop_prefix _ _ _ _ _ Hk2 Hrun) as [tail2 Htail2].
    destruct Hpre as [tail1 Htail1]. rewrite Htail2, Htail1. simpl. eauto. }
  destruct (localDependencies (block b)) as [|d ds].
  - apply Hprefix; [exact Hk1 | reflexivity].
  - destruct (resolveTree fuel _ _) as [[subDeps|e]|]; [|discriminate..].
    apply Hprefix; [exact (keyed_merge subDeps _ Hk1)|].
    apply (map_keys_merge_prefix subDeps [(remoteSpecifier b, direct b)]).
Qed.

Lemma pendingDeps_installed b blocks installed :
  (forall dep, dep ∈ localDependencies (block b) -> map_has dep installed = true) ->
  pendingDeps b blocks installed = [].
Proof.
  unfold pendingDeps.
  induction (localDependencies (block b)) as [|x xs IH]; intros Hinst; simpl; [reflexivity|].
  rewrite (Hinst x) by apply list_elem_of_here. rewrite andb_false_r.
  apply IH. intros dep Hdep. apply Hinst, elem_of_cons. auto.
Qed.

(** X9: local dependencies that are all in [installed] are not looked up:
    the call returns the requested block alone, even if a dependency could
    not be resolved. *)
Theorem resolveTree_installed_dependencies_skipped fuel s b installed :
  findBlock s = Ok b ->
  (forall dep, dep ∈ localDependencies (block b) -> map_has dep installed = true) ->
  resolveTree (2 + fuel) [s] installed = Some (Ok [direct b]).
Proof.
  intros Hfind Hinst.
  pose proof (pendingDeps_installed b [(remoteSpecifier b, direct b)] installed Hinst)
    as Hpending.
  change (resolveTree (2 + fuel) [s] installed)
    with (resolveLoop (resolveTree (1 + fuel)) installed [s] []).
  simpl resolveLoop. rewrite Hfind.
  destruct (localDependencies (block b)) as [|d ds]; [reflexivity|].
  rewrite Hpending. reflexivity.
Qed.

End ResolverCoverage.


(** ** More on the block graph builder *)

Section PolicyFacts.

(** The shape the four policy functions share. *)
Lemma policy_shape (exclude include : list string) (name : string) :
  (if (0 <? List.length exclude)%nat && includes exclude name then false
   else if (0 <? List.length include)%nat then includes include name else true) = true
  <-> (name ∉ exclude) /\ (include = [] \/ name ∈ include).
Proof.
  destruct (includes exclude name) eqn:Hex.
  - assert (Hin : name ∈ exclude) by (apply includes_true, Hex).
    destruct exclude as [|x xs]; [apply elem_of_nil in Hin as []|]. simpl.
    split; [discriminate | tauto].
  - assert (Hnot : name ∉ exclude).
    { intros Hin%includes_true. congruence. }
    rewrite andb_false_r. destruct include as [|y ys]; simpl.
    + split; auto.
    + change (includes (y :: ys) name = true <-> (name ∉ exclude) /\ (y :: ys = [] \/ name ∈ y :: ys)).
      rewrite includes_true. split; [auto|]. intros [_ [Hnil|Hin]]; [discriminate|exact Hin].
Qed.

(** X10: each policy says yes exactly when the name is not on its exclude
    list and its allow list is empty or has the name; an excluded name is
    refused even if it is also on the allow list. *)
Theorem policy_characterisation (name : string) (config : Builder.RegistryConfig) :
  (Builder.shouldIncludeBlock name config = true <->
   (name ∉ Builder.excludeBlocks config)
   /\ (Builder.includeBlocks config = [] \/ name ∈ Builder.includeBlocks config))
  /\ (Builder.shouldListBlock name config = true <->
      (name ∉ Builder.doNotListBlocks config)
      /\ (Builder.listBlocks config = [] \/ name ∈ Builder.listBlocks config))
  /\ (Builder.shouldIncludeCategory name config = true <->
      (name ∉ Builder.excludeCategories config)
      /\ (Builder.includeCategories config = [] \/ name ∈ Builder.includeCategories config))
  /\ (Builder.shouldListCategory name config = true <->
      (name ∉ Builder.doNotListCategories config)
      /\ (Builder.listCategories config = [] \/ name ∈ Builder.listCategories config)).
Proof.
  split; [|split; [|split]]; apply policy_shape.
Qed.

(** *** Test files *)

Lemma substring_whole (s : string) : String.substring 0 (String.length s) s = s.
Proof. induction s as [|c s IH]; simpl; [reflexivity|]. rewrite IH. reflexivity. Qed.

Lemma substring_after (p s : string) :
  String.substring (String.length p) (String.length s) (p ++ s)%string = s.
Proof. induction p as [|c p IH]; simpl; [apply substring_whole | exact IH]. Qed.

Lemma length_string_app (p s : string) :
  String.length (p ++ s)%string = (String.length p + String.length s)%nat.
Proof. induction p as [|c p IH]; simpl; [reflexivity|]. rewrite IH. reflexivity. Qed.

Lemma substring_split (s : string) : forall m,
  (m <= String.length s)%nat ->
  s = (String.substring 0 m s ++ String.substring m (String.length s - m) s)%string.
Proof.
  induction s as [|c s IH]; intros m Hm; simpl in *.
  - destruct m; [reflexivity|lia].
  - destruct m as [|m]; cbn.
    + rewrite substring_whole. reflexivity.
    + transitivity
        (String c (String.substring 0 m s
                   ++ String.substring m (String.length s - m) s)%string);
        [f_equal; apply IH; lia | reflexivity].
Qed.

Lemma endsWith_true (s suffix : string) :
  Builder.endsWith s suffix = true <-> exists stem, s = (stem ++ suffix)%string.
Proof.
  unfold Builder.endsWith. rewrite andb_true_iff, Nat.leb_le, String.eqb_eq. split.
  - intros [Hle Hsub].
    exists (String.substring 0 (String.length s - String.length suffix) s).
    pose proof (substring_split s (String.length s - String.length suffix)) as Hsplit.
    replace (String.length s - (String.length s - String.length suffix))%nat
      with (String.length suffix) in Hsplit by lia.
    rewrite Hsub in Hsplit. apply Hsplit. lia.
  - intros [stem ->]. rewrite length_string_app. split; [lia|].
    replace (String.length stem + String.length suffix - String.length suffix)%nat
      with (String.length stem) by lia.
    apply substring_after.
Qed.

(** X11: a file counts as a test file exactly when its name ends in one of
    [.test.ts], [_test.ts], [.test.js] and [_test.js]. *)
Theorem isTestFile_suffix (file : string) :
  Builder.isTestFile file = true <->
  exists stem suffix, suffix ∈ Builder.TEST_SUFFIXES /\ file = (stem ++ suffix)%string.
Proof.
  unfold Builder.isTestFile. split.
  - destruct (List.find _ Builder.TEST_SUFFIXES) as [suffix|] eqn:Hfind; [|discriminate].
    intros _. apply find_some in Hfind as [Hin [stem Hstem]%endsWith_true].
    exists stem, suffix. split; [apply list_elem_of_In, Hin | exact Hstem].
  - intros (stem & suffix & Hin & ->).
    destruct (List.find _ Builder.TEST_SUFFIXES) as [found|] eqn:Hfind; [reflexivity|].
    pose proof (find_none _ _ Hfind suffix) as Hnone. simpl in Hnone.
    rewrite (proj2 (endsWith_true _ suffix)) in Hnone by eauto.
    apply list_elem_of_In in Hin. specialize (Hnone Hin). discriminate.
Qed.

End PolicyFacts.


Section BuilderCoverage.
Import Builder.
Variable path : PathApi.
Variable languages : list Lang.
Variable opts : Options.

Local Abbreviation walkEntry := (walkEntry path languages opts).
Local Abbreviation walkFiles := (walkFiles path languages opts).
Local Abbreviation buildFileBlock := (buildFileBlock path languages opts).
Local Abbreviation buildDirectoryBlock := (buildDirectoryBlock path languages opts).
Local Abbreviation buildBlock := (buildBlock path languages opts).
Local Abbreviation buildCategory := (buildCategory path languages opts).
Local Abbreviation buildBlocksDirectory := (buildBlocksDirectory path languages opts).

(** *** Blocks built from one file *)

Lemma findTests_Some name (siblings : list string) t :
  findTests name siblings = Some t ->
  t ∈ siblings /\ exists suffix, suffix ∈ TEST_SUFFIXES /\ t = (name ++ suffix)%string.
Proof.
  unfold findTests. intros [Hin Htest]%find_some.
  split; [apply list_elem_of_In, Hin|].
  destruct (List.find _ TEST_SUFFIXES) as [suffix|] eqn:Hfind; [|discriminate].
  apply find_some in Hfind as [Hsuffix Heq%String.eqb_eq].
  exists suffix. split; [apply list_elem_of_In, Hsuffix | exact Heq].
Qed.

Lemma buildFileBlock_shape categoryName categoryDir listCategory siblings file log b log' :
  buildFileBlock categoryName categoryDir listCategory siblings file log
    = Ok (Some b, log') ->
  isTestFile file = false
  /\ shouldIncludeBlock (name b) (config opts) = true
  /\ ((tests b = false /\ files b = [file])
      \/ exists suffix,
           suffix ∈ TEST_SUFFIXES /\ (name b ++ suffix)%string ∈ siblings
           /\ tests b = true /\ files b = [file; (name b ++ suffix)%string]).
Proof.
  unfold Builder.buildFileBlock.
  destruct (isTestFile file); [intros [[=] _]%ret_Ok|].
  destruct (shouldIncludeBlock _ _) eqn:Hinc; [|intros [[=] _]%ret_Ok]. simpl.
  destruct (findLang languages file) as [lang|];
    [|intros (? & ? & _ & [[=] _]%ret_Ok)%bind_Ok].
  destruct (resolveDependencies lang _) as [r|err]; [|discriminate].
  intros [[= <-] _]%ret_Ok. simpl. split; [reflexivity|]. split; [exact Hinc|].
  destruct (findTests _ siblings) as [t|] eqn:Ht; [|auto].
  apply findTests_Some in Ht as (Hin & suffix & Hsuffix & ->). right. eauto 10.
Qed.

(** X13: a block built from a single file [file] is never built from a test
    file; its [files] are [file] alone with [tests] off, or [file] followed
    by the sibling named after the block with a test suffix, with [tests]
    on. *)
Theorem single_file_block_shape blocksPath root log categories log' c b :
  buildBlocksDirectory blocksPath root log = Ok (categories, log') ->
  c ∈ categories -> b ∈ blocks c ->
  subdirectory b = false ->
  exists file,
    isTestFile file = false
    /\ name b = transformBlockName path file
    /\ ((tests b = false /\ files b = [file])
        \/ exists suffix,
             suffix ∈ TEST_SUFFIXES
             /\ tests b = true /\ files b = [file; (name b ++ suffix)%string]).
Proof.
  intros Hrun Hc Hb.
  refine (buildBlocksDirectory_blocks path languages opts
            (fun _ b => subdirectory b = false -> exists file, _)
            _ _ _ _ _ _ _ Hrun c b Hc Hb).
  - intros cn cd fs f l b0 l' Hbuild _. exists f.
    pose proof (buildFileBlock_Some _ _ _ _ _ _ _ _ _ _ _ Hbuild) as (_ & _ & Hname & _).
    apply buildFileBlock_shape in Hbuild as (Htest & _ & [Hplain|(suffix & ? & _ & ? & ?)]).
    + auto.
    + split; [exact Htest|]. split; [exact Hname|]. right. eauto.
  - intros cn cd f ch l b0 l' (Hsub & _)%buildDirectoryBlock_Some. congruence.
Qed.

(** *** Policy on the output *)

(** X19: a block of the output is listed exactly when both its category
    and its own name pass the listing policy. *)
Theorem block_listed_iff blocksPath root log categories log' c b :
  buildBlocksDirectory blocksPath root log = Ok (categories, log') ->
  c ∈ categories -> b ∈ blocks c ->
  list_ b = shouldListCategory (cat_name c) (config opts)
            && shouldListBlock (name b) (config opts).
Proof.
  intros Hrun Hc Hb.
  refine (buildBlocksDirectory_blocks path languages opts
            (fun cn b => list_ b = shouldListCategory cn (config opts)
                                   && shouldListBlock (name b) (config opts))
            _ _ _ _ _ _ _ Hrun c b Hc Hb).
  - intros cn cd fs f l b0 l' (_ & _ & _ & _ & -> & _)%buildFileBlock_Some.
    destruct (shouldListCategory cn _); reflexivity.
  - intros cn cd f ch l b0 l' (_ & _ & -> & -> & _)%buildDirectoryBlock_Some.
    destruct (shouldListCategory cn _); reflexivity.
Qed.

(** *** Categories of the output *)

Lemma buildCategories_names blocksPath paths : forall acc log categories log',
  forOf (buildCategory blocksPath) paths acc log = Ok (categories, log') ->
  cat_name <$> categories
  = (cat_name <$> acc)
    ++ (basename path <$>
          (fst <$> List.filter (categoryKept path opts blocksPath) paths)).
Proof.
  induction paths as [|e rest IH]; intros acc log categories log'; simpl.
  - intros [<- _]%ret_Ok. rewrite app_nil_r. reflexivity.
  - intros (acc1 & log1 & Hstep & Hrest)%bind_Ok.
    apply IH in Hrest as ->. clear IH.
    unfold Builder.buildCategory in Hstep. unfold categoryKept.
    destruct (snd e) as [|files]; [apply ret_Ok in Hstep as [<- _]; reflexivity|].
    destruct (ignores opts _); simpl; [apply ret_Ok in Hstep as [<- _]; reflexivity|].
    destruct (shouldIncludeCategory _ _); simpl;
      [|apply ret_Ok in Hstep as [<- _]; reflexivity].
    apply bind_Ok in Hstep as (bs & l1 & _ & [<- _]%ret_Ok).
    rewrite fmap_app. csimpl. rewrite <- app_assoc. reflexivity.
Qed.

(** X18: the categories of the output are, in the order of the directory
    listing, the directories of [blocksPath] that are not ignored and pass
    the category inclusion policy, each under its base name; a category
    without blocks is kept. *)
Theorem buildBlocksDirectory_categories blocksPath paths log categories log' :
  buildBlocksDirectory blocksPath (Dir paths) log = Ok (categories, log') ->
  cat_name <$> categories
  = basename path <$> (fst <$> List.filter (categoryKept path opts blocksPath) paths).
Proof. intros Hrun. exact (buildCategories_names blocksPath paths [] _ _ _ Hrun). Qed.

(** X15: nothing the inclusion policy refuses is in the output: every
    category passes [shouldIncludeCategory] and comes from a directory that
    is not ignored, and every block passes [shouldIncludeBlock]. *)
Theorem output_passes_inclusion_policy blocksPath paths log categories log' c :
  buildBlocksDirectory blocksPath (Dir paths) log = Ok (categories, log') ->
  c ∈ categories ->
  shouldIncludeCategory (cat_name c) (config opts) = true
  /\ (exists dir children,
        (dir, Dir children) ∈ paths /\ cat_name c = basename path dir
        /\ ignores opts
             (relative path (cwd opts) (join path [blocksPath; dir]) ++ "/")%string
           = false)
  /\ forall b, b ∈ blocks c -> shouldIncludeBlock (name b) (config opts) = true.
Proof.
  intros Hrun Hc.
  assert (Hkept : exists e, e ∈ paths /\ categoryKept path opts blocksPath e = true
                            /\ cat_name c = basename path (fst e)).
  { pose proof (buildCategories_names blocksPath paths [] _ _ _ Hrun) as Hnames.
    assert (Hin : cat_name c ∈ cat_name <$> categories)
      by (apply list_elem_of_fmap; eauto).
    rewrite Hnames in Hin. simpl in Hin.
    apply list_elem_of_fmap in Hin as (dir & -> & Hdir).
    apply list_elem_of_fmap in Hdir as (e & -> & He).
    apply list_elem_of_In, filter_In in He as [He Hk].
    exists e. split; [apply list_elem_of_In, He | auto]. }
  destruct Hkept as ([dir node] & He & Hk & Hname). unfold categoryKept in Hk.
  simpl in Hk, Hname.
  destruct node as [|children]; [discriminate|].
  apply andb_true_iff in Hk as [Hign%negb_true_iff Hinc].
  split; [rewrite Hname; exact Hinc|]. split; [eauto 10|].
  intros b Hb.
  refine (buildBlocksDirectory_blocks path languages opts
            (fun _ b => shouldIncludeBlock (name b) (config opts) = true)
            _ _ _ _ _ _ _ Hrun c b Hc Hb).
  - intros cn cd fs f l b0 l' (_ & Hinc' & _)%buildFileBlock_shape. exact Hinc'.
  - intros cn cd f ch l b0 l' Hbuild.
    pose proof (buildDirectoryBlock_Some _ _ _ _ _ _ _ _ _ _ _ Hbuild) as (_ & _ & -> & _).
    unfold Builder.buildDirectoryBlock in Hbuild.
    destruct (shouldIncludeBlock f _); [reflexivity|].
    apply ret_Ok in Hbuild as [[=] _].
Qed.

(** *** What a walk keeps *)

Section WalkInvariant.
Variable categoryName blockName blockDir : string.
Variable I : WalkState -> list Warning -> Prop.
Hypothesis keeps_test : forall st log rel,
  I st log ->
  I (mkWalk (localDepsSet st) (depsSet st) (devDepsSet st) (ws_imports st) true
            (blockFiles st ++ [rel])) log.
Hypothesis keeps_not_allowed : forall st log p,
  allowSubdirectories (config opts) = false ->
  I st log -> I st (log ++ [SubdirectoriesNotAllowed p]).
Hypothesis keeps_unsupported : forall st log p ext,
  I st log -> I st (log ++ [UnsupportedFile p ext]).
Hypothesis keeps_resolved : forall st log r rel,
  I st log ->
  I (mkWalk (addLocal (specifierOf categoryName blockName) (local r) (localDepsSet st))
            (addAll (rd_dependencies r) (depsSet st))
            (addAll (rd_devDependencies r) (devDepsSet st))
            (assignAll (rd_imports r) (ws_imports st))
            (hasTests st) (blockFiles st ++ [rel])) log.

Lemma walkEntry_keeps node : forall base f st log st' log',
  I st log ->
  walkEntry categoryName blockName blockDir base f node st log = Ok (st', log') ->
  I st' log'.
Proof.
  induction node as [|entries IH] using FsNode_tree_ind;
    intros base f st log st' log' Hst; rewrite walkEntry_unfold; cbv zeta;
    destruct (isTestFile f);
    try (intros [<- <-]%ret_Ok; apply keeps_test, Hst).
  - destruct (findLang languages f) as [lang|].
    + destruct (resolveDependencies lang _) as [r|err]; [|discriminate].
      intros [<- <-]%ret_Ok. apply keeps_resolved, Hst.
    + intros (? & ? & [= _ <-] & [<- <-]%ret_Ok)%bind_Ok. apply keeps_unsupported, Hst.
  - destruct (allowSubdirectories (config opts)) eqn:Hallow; simpl.
    + unfold Builder.walkFiles. intros Hwalk.
      refine (forOf_invariant I _ entries _ st log st' log' Hst Hwalk).
      intros e s l s' l' Hin Hs Hbody.
      rewrite Forall_forall in IH. exact (IH e Hin _ _ _ _ _ _ Hs Hbody).
    + intros (? & ? & [= _ <-] & [<- <-]%ret_Ok)%bind_Ok.
      apply keeps_not_allowed; [reflexivity | exact Hst].
Qed.

Lemma walkFiles_keeps base entries st log st' log' :
  I st log ->
  walkFiles categoryName blockName blockDir base entries st log = Ok (st', log') ->
  I st' log'.
Proof.
  intros Hst. unfold Builder.walkFiles. apply (forOf_invariant I); [|exact Hst].
  intros e s l s' l' _ Hs. apply walkEntry_keeps. exact Hs.
Qed.
End WalkInvariant.

(** *** Aggregated sets *)

Lemma NoDup_set_add x s : NoDup s -> NoDup (set_add x s).
Proof.
  induction 1 as [|y s Hy Hs IH]; simpl; [apply NoDup_singleton|].
  destruct (String.eqb_spec x y) as [->|Hne]; [constructor; assumption|].
  constructor; [|exact IH].
  rewrite elem_of_set_add. intros [->|Hin]; [congruence | contradiction].
Qed.

Lemma NoDup_addAll deps : forall s, NoDup s -> NoDup (addAll deps s).
Proof.
  unfold addAll. induction deps as [|d ds IH]; intros s Hs; simpl; [exact Hs|].
  apply IH, NoDup_set_add, Hs.
Qed.

Lemma NoDup_addLocal self deps : forall s, NoDup s -> NoDup (addLocal self deps s).
Proof.
  unfold addLocal. induction deps as [|d ds IH]; intros s Hs; simpl; [exact Hs|].
  apply IH. destruct (String.eqb d self); [exact Hs | apply NoDup_set_add, Hs].
Qed.

Lemma NoDup_assignAll imps : forall (o : list (string * string)),
  NoDup (map_keys o) -> NoDup (map_keys (assignAll imps o)).
Proof.
  unfold assignAll. induction imps as [|kv rest IH]; intros o Ho; simpl; [exact Ho|].
  apply IH, NoDup_map_keys_set, Ho.
Qed.

(** X17: in a subdirectory block the aggregated local dependencies,
    dependencies and dev dependencies hold every name once, and the import
    table has one entry per import path. *)
Theorem subdirectory_block_sets blocksPath root log categories log' c b :
  buildBlocksDirectory blocksPath root log = Ok (categories, log') ->
  c ∈ categories -> b ∈ blocks c ->
  subdirectory b = true ->
  NoDup (localDependencies b) /\ NoDup (dependencies b)
  /\ NoDup (devDependencies b) /\ NoDup (map_keys (imports_ b)).
Proof.
  intros Hrun Hc Hb.
  refine (buildBlocksDirectory_blocks path languages opts
            (fun _ b => subdirectory b = true -> _) _ _ _ _ _ _ _ Hrun c b Hc Hb).
  - intros cn cd fs f l b0 l' (Hsub & _)%buildFileBlock_Some. congruence.
  - intros cn cd f ch l b0 l'
      (_ & _ & _ & _ & st & Hwalk & _ & -> & -> & -> & ->)%buildDirectoryBlock_Some _.
    refine (walkFiles_keeps cn f _
              (fun st _ => NoDup (localDepsSet st) /\ NoDup (depsSet st)
                           /\ NoDup (devDepsSet st) /\ NoDup (map_keys (ws_imports st)))
              _ _ _ _ _ _ emptyWalk l st l' _ Hwalk).
    + intros s0 l0 rel H. exact H.
    + intros s0 l0 p _ H. exact H.
    + intros s0 l0 p ext H. exact H.
    + intros s0 l0 r rel (H1 & H2 & H3 & H4). simpl.
      auto using NoDup_addLocal, NoDup_addAll, NoDup_assignAll.
    + simpl. repeat split; constructor.
Qed.

(** *** Warnings *)

(** The warnings a run may add. *)
Local Abbreviation expected w :=
  (match w with
   | UnsupportedFile _ _ => True
   | SubdirectoriesNotAllowed _ => allowSubdirectories (config opts) = false
   end).

(** X20: a successful build only appends to the log, and what it appends
    are warnings about files in an unsupported language and, only when
    [allowSubdirectories] is off, about nested directories. *)
Theorem buildBlocksDirectory_warnings blocksPath root log categories log' :
  buildBlocksDirectory blocksPath root log = Ok (categories, log') ->
  exists added, log' = log ++ added /\ Forall (fun w => expected w) added.
Proof.
  set (J := fun l : list Warning =>
              exists added, l = log ++ added /\ Forall (fun w => expected w) added).
  assert (Hwarn : forall l w, expected w -> J l -> J (l ++ [w])).
  { intros l w Hw (added & -> & Hadded). exists (added ++ [w]).
    rewrite app_assoc. split; [reflexivity|].
    apply Forall_app. split; [exact Hadded | repeat constructor; exact Hw]. }
  assert (Hstart : J log).
  { exists []. rewrite app_nil_r. split; [reflexivity | constructor]. }
  destruct root as [|paths]; simpl; [discriminate|]. intros Hrun.
  refine (forOf_invariant (fun _ l => J l) _ paths _ [] log categories log' Hstart Hrun).
  intros e cs l cs' l' _ Hl. unfold Builder.buildCategory.
  destruct (snd e) as [|files]; [intros [_ <-]%ret_Ok; exact Hl|].
  destruct (ignores opts _); [intros [_ <-]%ret_Ok; exact Hl|].
  destruct (negb _); [intros [_ <-]%ret_Ok; exact Hl|].
  intros (bs & l1 & Hbs & [_ <-]%ret_Ok)%bind_Ok.
  refine (forOf_invariant (fun _ l => J l) _ files _ [] l bs l1 Hl Hbs).
  intros child bs0 l0 bs' l0' _ Hl0. unfold Builder.buildBlock.
  intros (ob & l2 & Hob & [_ <-]%ret_Ok)%bind_Ok.
  destruct (snd child) as [|children].
  - unfold Builder.buildFileBlock in Hob.
    destruct (isTestFile (fst child)); [apply ret_Ok in Hob as [_ <-]; exact Hl0|].
    destruct (negb _); [apply ret_Ok in Hob as [_ <-]; exact Hl0|].
    destruct (findLang languages (fst child)) as [lang|].
    + destruct (resolveDependencies lang _); [|discriminate].
      apply ret_Ok in Hob as [_ <-]. exact Hl0.
    + apply bind_Ok in Hob as (? & ? & [= _ <-] & [_ <-]%ret_Ok).
      apply Hwarn; [exact Logic.I | exact Hl0].
  - unfold Builder.buildDirectoryBlock in Hob.
    destruct (negb _); [apply ret_Ok in Hob as [_ <-]; exact Hl0|].
    apply bind_Ok in Hob as (st & l3 & Hwalk & [_ <-]%ret_Ok).
    refine (walkFiles_keeps _ _ _ (fun _ l => J l) _ _ _ _ _ _ _ _ _ _ Hl0 Hwalk).
    + intros s0 lg rel H. exact H.
    + intros s0 lg p Hoff H. apply Hwarn; [exact Hoff | exact H].
    + intros s0 lg p ext H. apply Hwarn; [exact Logic.I | exact H].
    + intros s0 lg r rel H. exact H.
Qed.

End BuilderCoverage.


(** ** More on the pruning filter and the scanner *)

Section PruneCoverage.
Import Prune.

Lemma pruneBlocks_listed categories bs :
  (forall b, b ∈ bs -> list_ b = true) -> pruneBlocks categories bs = bs.
Proof.
  induction bs as [|b rest IH]; intros Hall; simpl; [reflexivity|].
  rewrite (Hall b) by apply list_elem_of_here. simpl.
  rewrite IH; [reflexivity|]. intros b' Hb'. apply Hall, elem_of_cons. auto.
Qed.

Lemma pruneCategories_listed categories cs :
  (forall c b, c ∈ cs -> b ∈ blocks c -> list_ b = true) ->
  pruneCategories categories cs
  = List.filter (fun c => match blocks c with [] => false | _ :: _ => true end) cs.
Proof.
  induction cs as [|c rest IH]; intros Hall; simpl; [reflexivity|].
  rewrite pruneBlocks_listed by (intros b Hb; apply (Hall c); [apply list_elem_of_here|exact Hb]).
  rewrite IH by (intros c' b Hc'; apply Hall, elem_of_cons; auto).
  destruct c as [nm [|b bs]]; reflexivity.
Qed.

(** X21: listed blocks are kept whatever depends on them: pruning a
    manifest whose blocks are all listed removes its empty categories and
    nothing else. *)
Theorem prune_all_listed categories :
  (forall b, inGraph categories b -> list_ b = true) ->
  prune categories
  = List.filter (fun c => match blocks c with [] => false | _ :: _ => true end)
                categories.
Proof.
  intros Hall. apply pruneCategories_listed.
  intros c b Hc Hb. apply Hall. exists c. auto.
Qed.

End PruneCoverage.

Section ScannerCoverage.
Import Scanner.
Variables Paths ResolvedPaths : Type.
Variable resolvePaths : Paths -> string -> Result ResolvedPaths string.
Variable getPathForBlock : Block -> ResolvedPaths -> string -> string.
Variable pathe : PathApi.

(** X12: the installed blocks are reported in the order of the known
    blocks, each known entry at most once. *)
Theorem getInstalled_in_order existsSync (known : list (string * Block)) config cwd
    installed :
  getInstalled Paths ResolvedPaths resolvePaths getPathForBlock pathe existsSync
               known config cwd = Ok installed ->
  (block <$> installed) `sublist_of` (snd <$> known).
Proof.
  unfold getInstalled.
  destruct (resolvePaths (paths Paths config) cwd) as [rp|e]; [|discriminate].
  intros [= <-].
  induction known as [|[k b] rest IH]; csimpl; [constructor|].
  destruct (existsSync _); csimpl; constructor; exact IH.
Qed.

End ScannerCoverage.

(** ** More runs on the concrete registries, projects and source trees *)

Section MoreRuns.
Import Scenario.

Local Abbreviation resolveIn m repos :=
  (Resolver.resolveTree selectProvider url_join m repos).
Local Abbreviation entry nm deps :=
  (Resolver.mkInstalling nm false (remote "ui" nm deps)).

(** *** Resolver *)

Lemma resolveTree_NoDup_witness :
  NoDup (Resolver.specifiers [entry "a" ["ui/b"]; entry "b" ["ui/a"]]).
Proof.
  apply (resolveTree_NoDup selectProvider url_join twoCycle [acme] 3 ["ui/a"] []).
  vm_compute. reflexivity.
Defined.

Lemma chainRank_decreases s b dep b' :
  Resolver.findBlock selectProvider url_join chain [acme] s = Ok b ->
  dep ∈ localDependencies (Resolver.block b) ->
  Resolver.findBlock selectProvider url_join chain [acme] dep = Ok b' ->
  chainRank b' < chainRank b.
Proof.
  intros [key Hkey]%findBlock_in_map Hdep Hb'.
  unfold chain, manifest in Hkey. apply elem_of_list_to_map_2 in Hkey.
  csimpl in Hkey.
  repeat (apply elem_of_cons in Hkey as [Hkey|Hkey]);
    try (apply elem_of_nil in Hkey as []);
    injection Hkey as _ ->; simpl in Hdep;
    try (apply elem_of_nil in Hdep as []);
    apply list_elem_of_singleton in Hdep as ->;
    vm_compute in Hb'; injection Hb' as <-; vm_compute; lia.
Defined.

Lemma resolveTree_acyclic_returns_witness :
  exists r, resolveIn chain [acme] (2 + 2) ["ui/button"] [] = Some r.
Proof.
  apply (resolveTree_acyclic_returns selectProvider url_join chain [acme]
           chainRank chainRank_decreases 2 ["ui/button"] []).
  intros s b _ _. unfold chainRank.
  destruct (String.eqb _ "theme"); [lia|]. destruct (String.eqb _ "icon"); lia.
Defined.

Lemma resolveTree_returns_dependencies_witness :
  let out := [entry "button" ["ui/icon"]; entry "icon" ["ui/theme"]; entry "theme" []] in
  (forall s, s ∈ ["github/acme/lib/ui/button"] ->
     exists b, Resolver.findBlock selectProvider url_join chain [acme] s = Ok b
               /\ Resolver.remoteSpecifier b ∈ Resolver.specifiers out)
  /\ (forall ib dep,
        ib ∈ out -> dep ∈ localDependencies (Resolver.block (Resolver.ib_block ib)) ->
        map_has dep ([] : list (string * Resolver.InstallingBlock)) = true
        \/ dep ∈ Resolver.specifiers out
        \/ exists b, Resolver.findBlock selectProvider url_join chain [acme] dep = Ok b
                     /\ Resolver.remoteSpecifier b ∈ Resolver.specifiers out).
Proof.
  apply (resolveTree_returns_dependencies selectProvider url_join chain [acme] 4
           ["github/acme/lib/ui/button"] []).
  vm_compute. reflexivity.
Defined.

Lemma resolveTree_error_origin_witness :
  exists s,
    Resolver.findBlock selectProvider url_join chain [] s
    = Err (Resolver.NoRepositoryConfigured "ui/icon")
    /\ ((Resolver.NoRepositoryConfigured "ui/icon" = Resolver.NoRepositoryConfigured s
         /\ selectProvider s = None
         /\ ([] : list Resolver.RegistryProviderState) = [])
        \/ (Resolver.NoRepositoryConfigured "ui/icon" = Resolver.BlockNotFound s
            /\ (([] : list Resolver.RegistryProviderState) <> []
                \/ selectProvider s <> None))).
Proof.
  apply (resolveTree_error_origin selectProvider url_join chain [] 3
           ["github/acme/lib/ui/button"] []).
  vm_compute. reflexivity.
Defined.

Lemma resolveTree_qualified_missing_witness :
  resolveIn chain [acme] 2 (["ui/theme"] ++ "github/acme/lib/ui/missing" :: ["ui/icon"]) []
  = Some (Err (Resolver.BlockNotFound "github/acme/lib/ui/missing")).
Proof.
  apply (resolveTree_qualified_missing selectProvider url_join chain [acme] 2
           ["ui/theme"] "github/acme/lib/ui/missing" ["ui/icon"] []
           [entry "theme" []] github).
  - reflexivity.
  - vm_compute. reflexivity.
  - vm_compute. reflexivity.
Defined.

Lemma findBlock_first_repo_witness :
  Resolver.findBlock selectProvider url_join bothRegistries [zed; acme] "ui/button"
  = Ok zedButton
  /\ Resolver.findBlock selectProvider url_join bothRegistries [acme; zed] "ui/button"
     = Ok (remote "ui" "button" ["ui/icon"]).
Proof.
  split.
  - apply (findBlock_first_repo selectProvider url_join bothRegistries [zed; acme]
             "ui/button" [] zed [acme] zedButton).
    + reflexivity.
    + reflexivity.
    + intros earlier Hin. inversion Hin.
    + vm_compute. reflexivity.
  - apply (findBlock_first_repo selectProvider url_join bothRegistries [acme; zed]
             "ui/button" [] acme [zed] (remote "ui" "button" ["ui/icon"])).
    + reflexivity.
    + reflexivity.
    + intros earlier Hin. inversion Hin.
    + vm_compute. reflexivity.
Defined.

Lemma resolveTree_entries_from_map_witness :
  Forall (fun ib => (exists key, chain !! key = Some (Resolver.ib_block ib))
                    /\ Resolver.ib_name ib = name (Resolver.block (Resolver.ib_block ib)))
         [entry "button" ["ui/icon"]; entry "icon" ["ui/theme"]; entry "theme" []].
Proof.
  apply (resolveTree_entries_from_map selectProvider url_join chain [acme] 4
           ["ui/button"] []).
  vm_compute. reflexivity.
Defined.

Lemma resolveTree_first_requested_first_witness :
  exists tail,
    Resolver.specifiers [entry "icon" ["ui/theme"]; entry "theme" []; entry "button" ["ui/icon"]]
    = Resolver.remoteSpecifier (remote "ui" "icon" ["ui/theme"]) :: tail.
Proof.
  apply (resolveTree_first_requested_first selectProvider url_join chain [acme] 4
           "ui/icon" ["ui/button"] []).
  - vm_compute. reflexivity.
  - vm_compute. reflexivity.
Defined.

Lemma resolveTree_installed_dependencies_skipped_witness :
  resolveIn chain [acme] (2 + 0) ["ui/button"] iconInstalled
  = Some (Ok [entry "button" ["ui/icon"]]).
Proof.
  apply (resolveTree_installed_dependencies_skipped selectProvider url_join chain [acme]
           0 "ui/button" (remote "ui" "button" ["ui/icon"]) iconInstalled).
  - vm_compute. reflexivity.
  - intros dep Hdep. simpl in Hdep. apply list_elem_of_singleton in Hdep as ->.
    reflexivity.
Defined.

(** *** Builder *)

Local Abbreviation builtArray fs := (arrayBlock true fs).

Lemma single_file_block_shape_witness :
  exists file,
    Builder.isTestFile file = false
    /\ name mathBlock = Builder.transformBlockName simplePath file
    /\ ((tests mathBlock = false /\ files mathBlock = [file])
        \/ exists suffix,
             suffix ∈ Builder.TEST_SUFFIXES
             /\ tests mathBlock = true
             /\ files mathBlock = [file; (name mathBlock ++ suffix)%string]).
Proof.
  refine (single_file_block_shape simplePath [typescript] (options (defaults false))
            "src" selfImportTree [] [mkCategory "utils" [mathBlock; stringBlock]] []
            (mkCategory "utils" [mathBlock; stringBlock]) mathBlock _ _ _ _).
  - vm_compute. reflexivity.
  - apply list_elem_of_here.
  - apply list_elem_of_here.
  - reflexivity.
Defined.

Lemma subdirectory_block_no_self_witness :
  blockSpecifier (builtArray ["index.ts"; "index.test.ts"])
  ∉ localDependencies (builtArray ["index.ts"; "index.test.ts"]).
Proof.
  refine (subdirectory_block_no_self simplePath [typescript] (options (defaults false))
            "src" flatArrayTree []
            [mkCategory "utils" [builtArray ["index.ts"; "index.test.ts"]]] []
            (mkCategory "utils" [builtArray ["index.ts"; "index.test.ts"]])
            (builtArray ["index.ts"; "index.test.ts"]) _ _ _ _).
  - vm_compute. reflexivity.
  - apply list_elem_of_here.
  - apply list_elem_of_here.
  - reflexivity.
Defined.

Lemma output_passes_inclusion_policy_witness :
  let c := mkCategory "utils" [mathBlock; stringBlock] in
  Builder.shouldIncludeCategory (cat_name c) (defaults false) = true
  /\ (exists dir children,
        (dir, Builder.Dir children)
          ∈ [("README.md", Builder.File);
             ("utils", Builder.Dir [("math.ts", Builder.File);
                                    ("string.ts", Builder.File)]);
             ("drafts", Builder.Dir [])]
        /\ cat_name c = simplePath.(basename) dir
        /\ Builder.ignores (options (defaults false))
             (simplePath.(relative) "/proj" (simplePath.(join) ["src"; dir]) ++ "/")%string
           = false)
  /\ forall b, b ∈ blocks c -> Builder.shouldIncludeBlock (name b) (defaults false) = true.
Proof.
  refine (output_passes_inclusion_policy simplePath [typescript] (options (defaults false))
            "src" _ [] [mkCategory "utils" [mathBlock; stringBlock]; mkCategory "drafts" []]
            [] (mkCategory "utils" [mathBlock; stringBlock]) _ _).
  - vm_compute. reflexivity.
  - apply list_elem_of_here.
Defined.

Lemma subdirectory_block_sets_witness :
  let b := builtArray ["index.ts"; "index.test.ts"; "internal/deep.ts"] in
  NoDup (localDependencies b) /\ NoDup (dependencies b)
  /\ NoDup (devDependencies b) /\ NoDup (map_keys (imports_ b)).
Proof.
  refine (subdirectory_block_sets simplePath [typescript] (options (defaults true))
            "src" arrayTree [] [mkCategory "utils" [_]] [] (mkCategory "utils" [_]) _
            _ _ _ _).
  - vm_compute. reflexivity.
  - apply list_elem_of_here.
  - apply list_elem_of_here.
  - reflexivity.
Defined.

Lemma buildBlocksDirectory_categories_witness :
  cat_name <$> [mkCategory "utils" [mathBlock; stringBlock]; mkCategory "drafts" []]
  = simplePath.(basename) <$>
      (fst <$> List.filter
                 (Builder.categoryKept simplePath (options (defaults false)) "src")
                 [("README.md", Builder.File);
                  ("utils", Builder.Dir [("math.ts", Builder.File);
                                         ("string.ts", Builder.File)]);
                  ("drafts", Builder.Dir [])]).
Proof.
  apply (buildBlocksDirectory_categories simplePath [typescript]
           (options (defaults false)) "src" _ [] _ []).
  vm_compute. reflexivity.
Defined.

Lemma block_listed_iff_witness :
  let b := arrayBlock false ["index.ts"; "index.test.ts"; "internal/deep.ts"] in
  list_ b = Builder.shouldListCategory "utils" unlistedUtils
            && Builder.shouldListBlock (name b) unlistedUtils.
Proof.
  refine (block_listed_iff simplePath [typescript] (options unlistedUtils)
            "src" arrayTree [] [mkCategory "utils" [_]] [] (mkCategory "utils" [_]) _
            _ _ _).
  - vm_compute. reflexivity.
  - apply list_elem_of_here.
  - apply list_elem_of_here.
Defined.

Lemma buildBlocksDirectory_warnings_witness :
  exists added,
    [Builder.SubdirectoriesNotAllowed "src/utils/array/internal"] = [] ++ added
    /\ Forall (fun w => match w with
                        | Builder.UnsupportedFile _ _ => True
                        | Builder.SubdirectoriesNotAllowed _ =>
                            Builder.allowSubdirectories (defaults false) = false
                        end) added.
Proof.
  apply (buildBlocksDirectory_warnings simplePath [typescript] (options (defaults false))
           "src" arrayTree []
           [mkCategory "utils" [builtArray ["index.ts"; "index.test.ts"]]]).
  vm_compute. reflexivity.
Defined.

(** *** Pruning and scanning *)

Lemma prune_all_listed_witness :
  Prune.prune listedManifest
  = List.filter (fun c => match blocks c with [] => false | _ :: _ => true end)
                listedManifest.
Proof.
  apply prune_all_listed.
  intros b (c & Hc & Hb). unfold listedManifest in Hc.
  repeat (apply elem_of_cons in Hc as [->|Hc]); try (apply elem_of_nil in Hc as []);
    simpl in Hb;
    repeat (apply elem_of_cons in Hb as [->|Hb]); try (apply elem_of_nil in Hb as []);
    reflexivity.
Defined.

Lemma getInstalled_in_order_witness :
  (Scanner.block <$>
     [Scanner.mkInstalled "utils/math" "/proj/src/blocks/utils/math.ts" mathBlock])
  `sublist_of` (snd <$> knownBlocks).
Proof.
  apply (getInstalled_in_order _ _ Scenario.resolvePaths Scenario.getPathForBlock
           simplePath onDisk knownBlocks project "/proj").
  vm_compute. reflexivity.
Defined.

End MoreRuns.
